(** * The record pipeline of [net/net.go]

    A shallow embedding of [putRecords], [loadRecords], [isKnown],
    [currentHead], [getRecord] and [getLocalRecords], together with the
    collaborators they call: the blockstore, the DAG service, the logstore,
    the application connector, the broadcast bus and the semaphore pool.

    The collaborators live outside [net.go].  Their mutable parts (blockstore
    contents, log heads, bus) are fields of [State]; their answers (which
    blocks the DAG service can produce, which calls fail and with which
    error, what the connector decides) are the fields of [World].
    [DAGService.Get] is a read: what it fetches is not added to the
    blockstore.  A failing write leaves its store as it was.  [State] also
    keeps the history of the calls that write or that reach the connector,
    so that their order can be stated. *)

From Stdlib Require Import ZArith String List.
From stdpp Require Import base option list gmap strings.

Open Scope string_scope.
Open Scope list_scope.

(** ** Data model *)

(** [cid.Cid]: either [cid.Undef] or a defined content identifier. *)
Inductive Cid := Undef | CidOf (h : N).

#[global] Instance Cid_eq_dec : EqDecision Cid.
Proof. solve_decision. Defined.

#[global] Instance Cid_countable : Countable Cid :=
  inj_countable'
    (λ c, match c with Undef => None | CidOf h => Some h end)
    (λ o, match o with None => Undef | Some h => CidOf h end)
    (λ c, match c with Undef => eq_refl | CidOf _ => eq_refl end).

Definition Defined (c : Cid) : bool :=
  match c with Undef => false | CidOf _ => true end.

Definition Equals (c d : Cid) : bool := bool_decide (c = d).

Definition error := string.
Definition ThreadID := string.   (* thread.ID *)
Definition LogID := string.      (* peer.ID *)
Definition Key := N.             (* sym.Key *)
Definition Identity := string.   (* thread.Libp2pPubKey *)

(** Outcome of a call that returns [(value, error)]. *)
Inductive Result (A : Type) := Ok (a : A) | Err (e : error).
Arguments Ok {A} a.
Arguments Err {A} e.

(** [core.Record]: the signed envelope. *)
Record NetRecord := mkRecord {
  RecordCid : Cid;      (* Cid() *)
  PrevID : Cid;         (* PrevID() *)
  BlockID : Cid;        (* BlockID(): the event *)
  PubKey : string       (* PubKey() *)
}.

(** [net.Record]: a record with its thread and log ([NewRecord]). *)
Record ThreadRecord := NewRecord {
  Value : NetRecord;
  threadID : ThreadID;
  logID : LogID
}.

#[global] Instance NetRecord_eq_dec : EqDecision NetRecord.
Proof. solve_decision. Defined.

#[global] Instance ThreadRecord_eq_dec : EqDecision ThreadRecord.
Proof. solve_decision. Defined.

(** Blocks the DAG service hands out.  Content addressing: the node is a
    function of the CID it is asked for. *)
Inductive Node :=
| RecordNode (prev block : Cid) (pubKey : string)
| EventNode (header body : Cid)
| DataNode (payload : string).

(** [app.Connector]: the two methods the pipeline calls. *)
Record Connector := mkConnector {
  ValidateNetRecordBody : Node -> Identity -> option error;
  HandleNetRecord : ThreadRecord -> option error
}.

(** Calls that reach a collaborator and either write or involve the
    application; [ok] tells whether the call returned a nil error. *)
Inductive Call :=
| AcquireCall (key : string)
| ReleaseCall (key : string)
| DecryptBodyCall (r : NetRecord) (ok : bool)
| ValidateCall (r : NetRecord) (ok : bool)
| AddManyCall (cs : list Cid) (ok : bool)
| SetHeadCall (tid : ThreadID) (lid : LogID) (c : Cid) (ok : bool)
| HandleCall (tr : ThreadRecord) (ok : bool)
| AddCall (r : NetRecord) (ok : bool)
| SendCall (tr : ThreadRecord) (ok : bool).

#[global] Instance Call_eq_dec : EqDecision Call.
Proof. solve_decision. Defined.

Record State := mkState {
  bstore : gset Cid;                              (* n.bstore *)
  heads : gmap (ThreadID * LogID) (list Cid);     (* n.store, head book *)
  bus : list ThreadRecord;                        (* n.bus, oldest first *)
  calls : list Call                               (* history, oldest first *)
}.

Record World := mkWorld {
  dag : Cid -> option Node;                       (* DAGService.Get *)
  decrypt : Key -> Node -> option Node;           (* open a block with a key *)
  hasErr : Cid -> option error;                   (* bstore.Has fails *)
  addErr : list Cid -> option error;              (* Add / AddMany fails *)
  headsErr : ThreadID -> LogID -> option error;   (* store.Heads fails *)
  setHeadErr : ThreadID -> LogID -> Cid -> option error;
  getLogErr : ThreadID -> LogID -> option error;  (* store.GetLog fails *)
  serviceKeys : ThreadID -> Result (option Key);  (* store.ServiceKey *)
  readKeys : ThreadID -> Result (option Key);     (* store.ReadKey *)
  unmarshalIdentity : string -> Result Identity;  (* UnmarshalBinary *)
  connectors : ThreadID -> option Connector;      (* n.connectors *)
  sendErr : ThreadRecord -> option error;         (* SendWithTimeout fails *)
  concurrent : State -> State   (* what other workers do to the stores
                                   between loadRecords and Acquire *)
}.

Definition ErrNotFound : error := "not found".

(** ** State and error passing *)

Definition M (A : Type) : Type := State -> State * Result A.

Definition ret {A} (a : A) : M A := fun s => (s, Ok a).
Definition fail {A} (e : error) : M A := fun s => (s, Err e).
Definition bind {A B} (m : M A) (k : A -> M B) : M B :=
  fun s => match m s with
           | (s', Ok a) => k a s'
           | (s', Err e) => (s', Err e)
           end.
Definition lift {A} (r : Result A) : M A := fun s => (s, r).
Definition record (c : Call) : M unit :=
  fun s => (mkState (bstore s) (heads s) (bus s) (calls s ++ [c]), Ok tt).
(** [fmt.Errorf(prefix + ": %w", err)] *)
Definition wrap {A} (prefix : string) (m : M A) : M A :=
  fun s => match m s with
           | (s', Err e) => (s', Err (prefix +:+ e))
           | r => r
           end.

Notation "'let*' x ':=' m 'in' k" := (bind m (fun x => k))
  (at level 10, x binder, m at level 200, k at level 200).
Notation "m '>>' k" := (bind m (fun _ => k))
  (at level 65, right associativity).

Section Pipeline.

Variable w : World.

(** ** Collaborators *)

(** [isKnown], net.go:1080 *)
Definition isKnown (c : Cid) : M bool :=
  fun s => match hasErr w c with
           | Some e => (s, Err e)
           | None => (s, Ok (bool_decide (c ∈ bstore s)))
           end.

(** [currentHead], net.go:1084 *)
Definition currentHead (tid : ThreadID) (lid : LogID) : M Cid :=
  fun s => match headsErr w tid lid with
           | Some e => (s, Err e)
           | None => match heads s !! (tid, lid) with
                     | Some (h :: _) => (s, Ok h)
                     | _ => (s, Ok Undef)
                     end
           end.

(** [n.store.SetHead] *)
Definition SetHead (tid : ThreadID) (lid : LogID) (c : Cid) : M unit :=
  fun s => match setHeadErr w tid lid c with
           | Some e =>
               (mkState (bstore s) (heads s) (bus s)
                        (calls s ++ [SetHeadCall tid lid c false]), Err e)
           | None =>
               (mkState (bstore s) (<[(tid, lid) := [c]]> (heads s)) (bus s)
                        (calls s ++ [SetHeadCall tid lid c true]), Ok tt)
           end.

(** [n.AddMany], the three inner blocks of an event *)
Definition AddMany (cs : list Cid) : M unit :=
  fun s => match addErr w cs with
           | Some e =>
               (mkState (bstore s) (heads s) (bus s)
                        (calls s ++ [AddManyCall cs false]), Err e)
           | None =>
               (mkState (list_to_set cs ∪ bstore s) (heads s) (bus s)
                        (calls s ++ [AddManyCall cs true]), Ok tt)
           end.

(** [n.Add], the record envelope *)
Definition Add (r : NetRecord) : M unit :=
  fun s => match addErr w [RecordCid r] with
           | Some e =>
               (mkState (bstore s) (heads s) (bus s)
                        (calls s ++ [AddCall r false]), Err e)
           | None =>
               (mkState ({[RecordCid r]} ∪ bstore s) (heads s) (bus s)
                        (calls s ++ [AddCall r true]), Ok tt)
           end.

(** [n.bus.SendWithTimeout] *)
Definition SendWithTimeout (tr : ThreadRecord) : M unit :=
  fun s => match sendErr w tr with
           | Some e =>
               (mkState (bstore s) (heads s) (bus s)
                        (calls s ++ [SendCall tr false]), Err e)
           | None =>
               (mkState (bstore s) (heads s) (bus s ++ [tr])
                        (calls s ++ [SendCall tr true]), Ok tt)
           end.

(** [connector.HandleNetRecord] *)
Definition handle (conn : Connector) (tr : ThreadRecord) : M unit :=
  fun s => match HandleNetRecord conn tr with
           | Some e =>
               (mkState (bstore s) (heads s) (bus s)
                        (calls s ++ [HandleCall tr false]), Err e)
           | None =>
               (mkState (bstore s) (heads s) (bus s)
                        (calls s ++ [HandleCall tr true]), Ok tt)
           end.

(** [format.DAGService.Get] *)
Definition dagGet (c : Cid) : M Node :=
  match dag w c with
  | Some n => ret n
  | None => fail ErrNotFound
  end.

(** [cbor.GetRecord]: fetch the node and open it with the service-key. *)
Definition cborGetRecord (c : Cid) (sk : Key) : M NetRecord :=
  let* coded := dagGet c in
  match decrypt w sk coded with
  | Some (RecordNode prev block pk) => ret (mkRecord c prev block pk)
  | Some _ => fail "invalid record"
  | None => fail "could not decrypt record"
  end.

(** [getRecord], net.go:738 *)
Definition getRecord (tid : ThreadID) (rid : Cid) : M NetRecord :=
  let* sk := lift (serviceKeys w tid) in
  match sk with
  | None => fail "a service-key is required to get records"
  | Some k => cborGetRecord rid k
  end.

(** ** loadRecords, net.go:952 *)

(** The backward walk over the input, net.go:980-987.  [rs] is the input
    from its last record to its first; the chain grows by [append]. *)
Fixpoint walkInputs (head : Cid) (rs : list NetRecord)
    (chain : list NetRecord) : list NetRecord * bool :=
  match rs with
  | [] => (chain, false)
  | next :: rest =>
      if negb (Defined (RecordCid next)) || Equals (RecordCid next) head
      then (chain, true)
      else walkInputs head rest (chain ++ [next])
  end.

(** The gap-filling loop, net.go:992-1004.  Each fetch uses one unit of
    [fuel]; [None] stands for a walk that has not ended within it. *)
Fixpoint bridge (fuel : nat) (tid : ThreadID) (head c : Cid)
    (chain : list NetRecord) (s : State)
    : option (State * Result (list NetRecord)) :=
  if negb (Defined c) then Some (s, Ok chain)
  else if Equals c head then Some (s, Ok chain)
  else match fuel with
       | O => None
       | S fuel' =>
           match getRecord tid c s with
           | (s', Err e) => Some (s', Err e)
           | (s', Ok r) => bridge fuel' tid head (PrevID r) (chain ++ [r]) s'
           end
       end.

(** The validation switch, net.go:1012-1027: the connector and the
    read-key when [validate] is true. *)
Definition validation (tid : ThreadID) : M (option (Connector * Key)) :=
  match connectors w tid with
  | None => ret None
  | Some conn =>
      let* rk := lift (readKeys w tid) in
      match rk with
      | None => ret None
      | Some k => ret (Some (conn, k))
      end
  end.

Definition validate (v : option (Connector * Key)) : bool :=
  match v with Some _ => true | None => false end.

(** [event.GetBody(ctx, n, readKey)] and the connector's verdict,
    net.go:1054-1067. *)
Definition validateBody (conn : Connector) (readKey : Key) (r : NetRecord)
    (body : Node) : M unit :=
  match decrypt w readKey body with
  | None => record (DecryptBodyCall r false) >> fail "could not decrypt body"
  | Some dbody =>
      record (DecryptBodyCall r true) >>
      let* identity := lift (unmarshalIdentity w (PubKey r)) in
      match ValidateNetRecordBody conn dbody identity with
      | Some e => record (ValidateCall r false) >> fail e
      | None => record (ValidateCall r true)
      end
  end.

(** One turn of the validation loop, net.go:1030-1074. *)
Definition loadRecord (tid : ThreadID) (lid : LogID)
    (v : option (Connector * Key)) (r : NetRecord) : M ThreadRecord :=
  let* block := dagGet (BlockID r) in
  match block with
  | EventNode headerID bodyID =>
      let* header := dagGet headerID in
      let* body := dagGet bodyID in
      match v with
      | Some (conn, readKey) => validateBody conn readKey r body
      | None => ret tt
      end >>
      AddMany [BlockID r; headerID; bodyID] >>
      ret (NewRecord r tid lid)
  | _ => fail "invalid event: node is not an event"
  end.

(** The validation loop, net.go:1029-1075; [rs] is the chain from its
    oldest record on. *)
Fixpoint loadChain (tid : ThreadID) (lid : LogID)
    (v : option (Connector * Key)) (rs : list NetRecord)
    (tRecords : list ThreadRecord) : M (list ThreadRecord) :=
  match rs with
  | [] => ret tRecords
  | r :: rest =>
      let* tr := loadRecord tid lid v r in
      loadChain tid lid v rest (tRecords ++ [tr])
  end.

(** The first half of [loadRecords], net.go:958-1010: the records to load,
    newest first, and the head they were measured against.  The two early
    exits and the fast path give the empty chain. *)
Definition gatherChain (fuel : nat) (tid : ThreadID) (lid : LogID)
    (recs : list NetRecord) (s : State)
    : option (State * (list NetRecord * Cid * option error)) :=
  match rev recs with
  | [] => Some (s, ([], Undef, Some "cannot load empty record chain"))
  | last :: before =>
      match isKnown (RecordCid last) s with
      | (s, Err e) => Some (s, ([], Undef, Some e))
      | (s, Ok known) =>
          if known || negb (Defined (RecordCid last))
          then Some (s, ([], Undef, None))
          else
            match currentHead tid lid s with
            | (s, Err e) => Some (s, ([], Undef, Some e))
            | (s, Ok head) =>
                let '(chain, complete) :=
                  walkInputs head (last :: before) [] in
                if complete then Some (s, (chain, head, None))
                else
                  match bridge fuel tid head
                          (PrevID (List.last chain last)) chain s with
                  | None => None
                  | Some (s, Err e) => Some (s, ([], head, Some e))
                  | Some (s, Ok chain) => Some (s, (chain, head, None))
                  end
            end
      end
  end.

(** What [loadRecords] returns: [(chain, head, err)]. *)
Definition Loaded : Type := list ThreadRecord * Cid * option error.

Definition loadRecords (fuel : nat) (tid : ThreadID) (lid : LogID)
    (recs : list NetRecord) (s : State) : option (State * Loaded) :=
  match gatherChain fuel tid lid recs s with
  | None => None
  | Some (s, (_, head, Some e)) => Some (s, ([], head, Some e))
  | Some (s, ([], head, None)) => Some (s, ([], head, None))
  | Some (s, (chain, head, None)) =>
      match (let* v := validation tid in
             loadChain tid lid v (rev chain) []) s with
      | (s, Err e) => Some (s, ([], head, Some e))
      | (s, Ok tRecords) => Some (s, (tRecords, head, None))
      end
  end.

(** ** putRecords, net.go:885 *)

(** [semaThreadUpdate.Key], net.go:87 *)
Definition semaKey (tid : ThreadID) : string := "tu:" +:+ tid.

Definition Acquire (tid : ThreadID) (s : State) : State :=
  mkState (bstore s) (heads s) (bus s) (calls s ++ [AcquireCall (semaKey tid)]).

Definition Release (tid : ThreadID) (s : State) : State :=
  mkState (bstore s) (heads s) (bus s) (calls s ++ [ReleaseCall (semaKey tid)]).

(** The fast-forward, net.go:902-909: the records after the first one
    whose CID is [current], if there is one. *)
Fixpoint fastForward (current : Cid) (chain : list ThreadRecord)
    : option (list ThreadRecord) :=
  match chain with
  | [] => None
  | tr :: rest =>
      if Equals (RecordCid (Value tr)) current then Some rest
      else fastForward current rest
  end.

(** One turn of the commit loop, net.go:918-945. *)
Definition commitRecord (tid : ThreadID) (lid : LogID) (tr : ThreadRecord)
    : M unit :=
  wrap "setting log head failed: " (SetHead tid lid (RecordCid (Value tr))) >>
  match connectors w tid with
  | Some connector => wrap "handling record failed: " (handle connector tr)
  | None => ret tt
  end >>
  wrap "adding record to the blockstore failed: " (Add (Value tr)) >>
  SendWithTimeout tr.

(** The commit loop, net.go:917-946. *)
Fixpoint commitRecords (tid : ThreadID) (lid : LogID)
    (chain : list ThreadRecord) : M unit :=
  match chain with
  | [] => ret tt
  | tr :: rest => commitRecord tid lid tr >> commitRecords tid lid rest
  end.

(** The section under the semaphore, net.go:897-948. *)
Definition putRecordsLocked (tid : ThreadID) (lid : LogID)
    (chain : list ThreadRecord) (head : Cid) : M unit :=
  let* current := wrap "fetching head failed: " (currentHead tid lid) in
  if negb (Equals current head) then
    match fastForward current chain with
    | Some rest => commitRecords tid lid rest
    | None => ret tt
    end
  else commitRecords tid lid chain.

(** The stores as the other workers leave them while this one waits for
    the semaphore; the history stays this worker's own. *)
Definition interfere (s : State) : State :=
  let s' := concurrent w s in
  mkState (bstore s') (heads s') (bus s') (calls s).

(** [defer ts.Release()] and the error that is returned. *)
Definition released (tid : ThreadID) (out : State * Result unit)
    : State * option error :=
  match out with
  | (s, Err e) => (Release tid s, Some e)
  | (s, Ok _) => (Release tid s, None)
  end.

Definition putRecords (fuel : nat) (tid : ThreadID) (lid : LogID)
    (recs : list NetRecord) (s : State) : option (State * option error) :=
  match loadRecords fuel tid lid recs s with
  | None => None
  | Some (s, (_, _, Some e)) => Some (s, Some ("loading records failed: " +:+ e))
  | Some (s, ([], _, None)) => Some (s, None)
  | Some (s, (chain, head, None)) =>
      Some (released tid
              (putRecordsLocked tid lid chain head (Acquire tid (interfere s))))
  end.

(** ** getLocalRecords, net.go:1147 *)

(** [n.store.GetLog]: only the head of the log is used. *)
Definition GetLogHead (tid : ThreadID) (lid : LogID) : M Cid :=
  fun s => match getLogErr w tid lid with
           | Some e => (s, Err e)
           | None => match heads s !! (tid, lid) with
                     | Some (h :: _) => (s, Ok h)
                     | _ => (s, Ok Undef)
                     end
           end.

(** The loop of net.go:1180-1191; [room] is [limit - len(recs)]. *)
Fixpoint walkLocal (room : nat) (sk : Key) (offset cursor : Cid)
    (recs : list NetRecord) (s : State) : list NetRecord * option error :=
  match room with
  | O => (recs, None)
  | S room' =>
      if negb (Defined cursor) || Equals cursor offset then (recs, None)
      else match cborGetRecord cursor sk s with
           | (_, Err e) => (recs, Some e)
           | (s', Ok r) => walkLocal room' sk offset (PrevID r) (r :: recs) s'
           end
  end.

Definition getLocalRecords (tid : ThreadID) (lid : LogID) (offset : Cid)
    (limit : Z) (s : State) : list NetRecord * option error :=
  let known :=
    if Defined offset then isKnown offset s else (s, Ok true) in
  match known with
  | (_, Err e) => ([], Some e)
  | (_, Ok false) => ([], None)
  | (_, Ok true) =>
      match GetLogHead tid lid s with
      | (_, Err e) => ([], Some e)
      | (_, Ok head) =>
          match serviceKeys w tid with
          | Err e => ([], Some e)
          | Ok None => ([], Some "a service-key is required to get records")
          | Ok (Some sk) => walkLocal (Z.to_nat limit) sk offset head [] s
          end
      end
  end.

End Pipeline.

(** ** Vocabulary of the statements *)

(** The head of a log as [currentHead] reads it from the head book. *)
Definition headOf (s : State) (tid : ThreadID) (lid : LogID) : Cid :=
  match heads s !! (tid, lid) with
  | Some (h :: _) => h
  | _ => Undef
  end.

(** Calls that [loadRecords] makes. *)
Definition loadCall (c : Call) : bool :=
  match c with
  | DecryptBodyCall _ _ | ValidateCall _ _ | AddManyCall _ _ => true
  | _ => false
  end.

(** What [loadRecords] may do to the state: heads and bus untouched, the
    blockstore only grows, the history grows by load calls. *)
Record LoadFrame (s s' : State) : Prop := mkLoadFrame {
  lf_heads : heads s' = heads s;
  lf_bus : bus s' = bus s;
  lf_bstore : bstore s ⊆ bstore s';
  lf_calls : ∃ cs : list Call,
    calls s' = calls s ++ cs ∧ Forall (λ c, loadCall c = true) cs
}.

(** The connector rejects the body of [r]: the event, its body and the
    author identity can all be produced, the read-key opens the body, and
    [ValidateNetRecordBody] answers with an error. *)
Definition bodyRejected (w : World) (conn : Connector) (key : Key)
    (r : NetRecord) : bool :=
  match dag w (BlockID r) with
  | Some (EventNode _ bodyID) =>
      match dag w bodyID with
      | Some body =>
          match decrypt w key body, unmarshalIdentity w (PubKey r) with
          | Some dbody, Ok author =>
              match ValidateNetRecordBody conn dbody author with
              | Some _ => true
              | None => false
              end
          | _, _ => false
          end
      | None => false
      end
  | _ => false
  end.

(** ** The commit loop *)

Definition cidOf (tr : ThreadRecord) : Cid := RecordCid (Value tr).

(** The CIDs handed to successful [SetHead] calls, in order. *)
Definition headWrites (cs : list Call) : list Cid :=
  omap (λ c, match c with SetHeadCall _ _ x true => Some x | _ => None end) cs.

Ltac commit_cases w tid lid tr :=
  unfold commitRecord, bind, wrap, SetHead, handle, Add, SendWithTimeout, ret;
  destruct (setHeadErr w tid lid (RecordCid (Value tr))) eqn:?; simpl;
  [| destruct (connectors w tid) as [?conn|] eqn:?; simpl;
     [ destruct (HandleNetRecord conn tr) eqn:?; simpl |];
     try (destruct (addErr w [RecordCid (Value tr)]) eqn:?; simpl;
          [| destruct (sendErr w tr) eqn:?; simpl ]) ].

(** The calls of one turn of the commit loop, by the place where it stops. *)
Definition handled (w : World) (tid : ThreadID) (tr : ThreadRecord) : list Call :=
  match connectors w tid with
  | Some _ => [HandleCall tr true]
  | None => []
  end.

Inductive Block (w : World) (tid : ThreadID) (lid : LogID) (tr : ThreadRecord)
    (s s1 : State) : Result unit → list Call → Prop :=
| block_sethead e :
    setHeadErr w tid lid (cidOf tr) = Some e →
    bstore s1 = bstore s → heads s1 = heads s → bus s1 = bus s →
    Block w tid lid tr s s1 (Err ("setting log head failed: " +:+ e))
      [SetHeadCall tid lid (cidOf tr) false]
| block_handle conn e :
    setHeadErr w tid lid (cidOf tr) = None →
    connectors w tid = Some conn → HandleNetRecord conn tr = Some e →
    bstore s1 = bstore s → heads s1 = <[(tid, lid) := [cidOf tr]]> (heads s) →
    bus s1 = bus s →
    Block w tid lid tr s s1 (Err ("handling record failed: " +:+ e))
      [SetHeadCall tid lid (cidOf tr) true; HandleCall tr false]
| block_add e :
    setHeadErr w tid lid (cidOf tr) = None →
    addErr w [cidOf tr] = Some e →
    bstore s1 = bstore s → heads s1 = <[(tid, lid) := [cidOf tr]]> (heads s) →
    bus s1 = bus s →
    Block w tid lid tr s s1
      (Err ("adding record to the blockstore failed: " +:+ e))
      (SetHeadCall tid lid (cidOf tr) true :: handled w tid tr
         ++ [AddCall (Value tr) false])
| block_send e :
    setHeadErr w tid lid (cidOf tr) = None →
    addErr w [cidOf tr] = None →
    sendErr w tr = Some e →
    bstore s1 = {[cidOf tr]} ∪ bstore s →
    heads s1 = <[(tid, lid) := [cidOf tr]]> (heads s) →
    bus s1 = bus s →
    Block w tid lid tr s s1 (Err e)
      (SetHeadCall tid lid (cidOf tr) true :: handled w tid tr
         ++ [AddCall (Value tr) true; SendCall tr false])
| block_done :
    setHeadErr w tid lid (cidOf tr) = None →
    (∀ conn, connectors w tid = Some conn → HandleNetRecord conn tr = None) →
    addErr w [cidOf tr] = None →
    sendErr w tr = None →
    bstore s1 = {[cidOf tr]} ∪ bstore s →
    heads s1 = <[(tid, lid) := [cidOf tr]]> (heads s) →
    bus s1 = bus s ++ [tr] →
    Block w tid lid tr s s1 (Ok tt)
      (SetHeadCall tid lid (cidOf tr) true :: handled w tid tr
         ++ [AddCall (Value tr) true; SendCall tr true]).

(** The calls of the commit loop: full turns, then possibly one that stops. *)
Inductive Blocks (w : World) (tid : ThreadID) (lid : LogID)
    : list ThreadRecord → State → State → Result unit → list Call → Prop :=
| blocks_nil s s' :
    bstore s' = bstore s → heads s' = heads s → bus s' = bus s →
    Blocks w tid lid [] s s' (Ok tt) []
| blocks_turn tr chain s s1 s' r blk cc :
    Block w tid lid tr s s1 (Ok tt) blk →
    Blocks w tid lid chain s1 s' r cc →
    Blocks w tid lid (tr :: chain) s s' r (blk ++ cc)
| blocks_stop tr chain s s1 e blk :
    Block w tid lid tr s s1 (Err e) blk →
    Blocks w tid lid (tr :: chain) s s1 (Err e) blk.

Ltac use_block B :=
  unfold handled, cidOf in B;
  try match goal with H : connectors _ _ = _ |- _ => rewrite H in B end;
  simpl in B; eapply B; simpl; try done; intros; simplify_eq; done.

Ltac positions H :=
  lazymatch type of H with
  | [] = ?pre ++ _ :: _ => by destruct pre
  | _ :: _ = ?pre ++ _ :: _ =>
      let x := fresh "x" in
      destruct pre as [|x pre]; simpl in H; injection H as ? H;
      [ | positions H ]
  end.

Definition outcome (r : Result unit) : option error :=
  match r with Ok _ => None | Err e => Some e end.

(** ** A sample log

    Records 1, 2, 3, ... of one author: record [n] points back to record
    [n - 1], its event is block [10 n + 1] with header [10 n + 2] and body
    [10 n + 3]. *)

Definition sampleRecord (n : N) : NetRecord :=
  mkRecord (CidOf n) (if (n =? 1)%N then Undef else CidOf (n - 1))
           (CidOf (10 * n + 1)) "author".

Definition sampleDag (c : Cid) : option Node :=
  match c with
  | Undef => None
  | CidOf n =>
      if (n <? 10)%N
      then Some (RecordNode (PrevID (sampleRecord n)) (BlockID (sampleRecord n))
                            "author")
      else if (n mod 10 =? 1)%N
           then Some (EventNode (CidOf (n + 1)) (CidOf (n + 2)))
           else Some (DataNode "payload")
  end.

(** A connector that rejects the body of the records in [rejected] and
    fails to handle the records in [poison]. *)
Definition sampleConnector (poison : list Cid) : Connector :=
  mkConnector
    (fun _ _ => None)
    (fun tr => if bool_decide (RecordCid (Value tr) ∈ poison)
               then Some "reducer failed" else None).

Definition strictConnector : Connector :=
  mkConnector (fun _ _ => Some "body rejected") (fun _ => None).

(** A world where every collaborator answers, with the given connector and
    read-key. *)
Definition sampleWorld (conn : option Connector) (readKey : option Key) : World :=
  mkWorld sampleDag (fun _ n => Some n) (fun _ => None) (fun _ => None)
          (fun _ _ => None) (fun _ _ _ => None) (fun _ _ => None)
          (fun _ => Ok (Some 7%N)) (fun _ => Ok readKey)
          (fun pk => Ok pk) (fun _ => conn) (fun _ => None) (fun s => s).

Definition emptyState : State := mkState ∅ ∅ [] [].

Definition stateOf (out : option (State * option error)) : State :=
  match out with Some (s, _) => s | None => emptyState end.

Definition errorOf (out : option (State * option error)) : option error :=
  match out with Some (_, e) => e | None => None end.

Definition withConcurrent (f : State -> State) (w : World) : World :=
  mkWorld (dag w) (decrypt w) (hasErr w) (addErr w) (headsErr w)
          (setHeadErr w) (getLogErr w) (serviceKeys w) (readKeys w)
          (unmarshalIdentity w) (connectors w) (sendErr w) f.

(** Another worker commits record [r] of log ["l"] of thread ["t"]. *)
Definition otherWorkerCommits (r : NetRecord) (s : State) : State :=
  mkState ({[RecordCid r]} ∪ bstore s)
          (<[("t", "l") := [RecordCid r]]> (heads s))
          (bus s ++ [NewRecord r "t" "l"]) (calls s).

Definition threeRecords : list NetRecord :=
  [sampleRecord 1; sampleRecord 2; sampleRecord 3].

Definition sampleThreadRecord (n : N) : ThreadRecord :=
  NewRecord (sampleRecord n) "t" "l".

(** The handler fails on record 2. *)
Definition poisonWorld : World :=
  sampleWorld (Some (sampleConnector [CidOf 2])) (Some 8%N).

Definition poisonRun : option (State * option error) :=
  putRecords poisonWorld 5 "t" "l" threeRecords emptyState.

(** The connector rejects every body. *)
Definition strictWorld : World := sampleWorld (Some strictConnector) (Some 8%N).

(** While records 1, 2, 3 are loaded, another worker commits record 1. *)
Definition racingWorld : World :=
  withConcurrent (otherWorkerCommits (sampleRecord 1)) (sampleWorld None None).

Definition loadedState (out : option (State * Loaded)) : State :=
  match out with Some (s, _) => s | None => emptyState end.

Definition racingLoaded : State :=
  loadedState (loadRecords racingWorld 5 "t" "l" threeRecords emptyState).

(** ** Vocabulary for [getLocalRecords] *)

(** Chronological order: each record points back to the one before it. *)
Fixpoint linked (recs : list NetRecord) : Prop :=
  match recs with
  | r1 :: rest =>
      match rest with
      | r2 :: _ => PrevID r2 = RecordCid r1 ∧ linked rest
      | [] => True
      end
  | [] => True
  end.

(** Where the walk stands: the CID before the oldest record collected, or
    the head when nothing has been collected. *)
Definition cursorOf (recs : list NetRecord) (head : Cid) : Cid :=
  match recs with
  | r :: _ => PrevID r
  | [] => head
  end.

(** Every collaborator answers, no connector; records 1, 2, 3 settled. *)
Definition quietWorld : World := sampleWorld None None.

Definition settledState : State :=
  stateOf (putRecords quietWorld 5 "t" "l" threeRecords emptyState).

(** ** Vocabulary for service-only threads *)

(** Calls that open or judge a body. *)
Definition bodyCall (c : Call) : bool :=
  match c with
  | ValidateCall _ _ | DecryptBodyCall _ _ => true
  | _ => false
  end.

(** The history grows by calls that satisfy [P]. *)
Definition Extends (P : Call → Prop) (s s' : State) : Prop :=
  ∃ cs : list Call, calls s' = calls s ++ cs ∧ Forall P cs.

(** The event, header and body of [r] can be fetched and stored. *)
Definition loads (w : World) (r : NetRecord) : bool :=
  match dag w (BlockID r) with
  | Some (EventNode headerID bodyID) =>
      match dag w headerID, dag w bodyID,
            addErr w [BlockID r; headerID; bodyID] with
      | Some _, Some _, None => true
      | _, _, _ => false
      end
  | _ => false
  end.

(** No collaborator of the commit loop fails on [r]. *)
Definition commits (w : World) (tid : ThreadID) (lid : LogID) (r : NetRecord)
    : bool :=
  match setHeadErr w tid lid (RecordCid r),
        match connectors w tid with
        | Some conn => HandleNetRecord conn (NewRecord r tid lid)
        | None => None
        end,
        addErr w [RecordCid r], sendErr w (NewRecord r tid lid) with
  | None, None, None, None => true
  | _, _, _, _ => false
  end.

(** A thread with a connector but no read-key. *)
Definition relayWorld : World := sampleWorld (Some (sampleConnector [])) None.

(** The run of [poisonRun] repeated on the state it left. *)
Definition poisonRerun : option (State * option error) :=
  putRecords poisonWorld 5 "t" "l" threeRecords (stateOf poisonRun).

(** ** Vocabulary for the envelope invariant *)






(** ** Vocabulary for head monotonicity *)

(** [target] is met when following [prev] pointers from [c]. *)
Inductive Reaches (w : World) (tid : ThreadID) (s : State) : Cid → Cid → Prop :=
| reaches_here c : Reaches w tid s c c
| reaches_prev c r target :
    getRecord w tid c s = (s, Ok r) →
    Reaches w tid s (PrevID r) target →
    Reaches w tid s c target.

(** The handler works again. *)
Definition healedWorld : World := sampleWorld (Some (sampleConnector [])) (Some 8%N).

(** After [poisonRun] stopped on record 2, record 3 is pushed and
    ingested; later record 2 is pushed once more. *)
Definition resumedState : State :=
  stateOf (putRecords healedWorld 5 "t" "l" [sampleRecord 3] (stateOf poisonRun)).

Definition latePush : option (State * option error) :=
  putRecords healedWorld 5 "t" "l" [sampleRecord 2] resumedState.

(** ** Vocabulary for the gathered chain *)

(** Newest first: each record points back to the next one of the list. *)
Fixpoint descends (chain : list NetRecord) : Prop :=
  match chain with
  | r1 :: rest =>
      match rest with
      | r2 :: _ => PrevID r1 = RecordCid r2 ∧ descends rest
      | [] => True
      end
  | [] => True
  end.

(** The walk over the input goes past [r]: its CID is defined and is not
    the head. *)
Definition passes (head : Cid) (r : NetRecord) : Prop :=
  Defined (RecordCid r) = true ∧ RecordCid r ≠ head.

(** The bus does not take record 2 within the timeout. *)
Definition slowBusWorld : World :=
  mkWorld sampleDag (fun _ n => Some n) (fun _ => None) (fun _ => None)
          (fun _ _ => None) (fun _ _ _ => None) (fun _ _ => None)
          (fun _ => Ok (Some 7%N)) (fun _ => Ok None)
          (fun pk => Ok pk) (fun _ => None)
          (fun tr => if Equals (RecordCid (Value tr)) (CidOf 2)
                     then Some "bus timeout" else None)
          (fun s => s).

Definition slowBusRun : option (State * option error) :=
  putRecords slowBusWorld 5 "t" "l" threeRecords emptyState.

(** * Pulling and adding records

    [pullThread], [updateRecordsFromPeer], [threadOffsets], [uniquePeers],
    [callablePeer] and [AddRecord] feed [putRecords].  What they ask of the
    host, the logstore, the thread server and the multiaddress library is
    gathered in [Network].  A Go map that is ranged over is given as the
    list of its entries in the order of the iteration, which the language
    leaves open; no statement depends on that order. *)

Definition PeerID := string.      (* peer.ID *)
Definition Multiaddr := string.   (* ma.Multiaddr *)
Definition Token := string.       (* thread.Token *)

(** [thread.LogInfo]: the fields [threadOffsets] reads. *)
Record LogInfo := mkLogInfo {
  ID : LogID;
  Head : Cid;
  Addrs : list Multiaddr
}.

(** The entries of a [map[peer.ID][]core.Record]. *)
Definition Reply := list (LogID * list NetRecord).

Record Network := mkNetwork {
  hostID : PeerID;                                   (* n.host.ID() *)
  valueForP2P : Multiaddr -> Result string;          (* ValueForProtocol(P_P2P) *)
  peerDecode : string -> Result PeerID;              (* peer.Decode *)
  getThread : ThreadID -> Result (list (LogID * list Multiaddr));
                                                     (* store.GetThread: the
                                                        logs and addresses *)
  getRecords : list PeerID -> ThreadID -> gmap LogID Cid -> Z -> Result Reply;
                                                     (* n.server.getRecords *)
  buildRequestErr : ThreadID -> option error;        (* buildGetRecordsRequest *)
  getRecordsFromPeer : PeerID -> ThreadID -> gmap LogID Cid -> Z -> Result Reply;
  validateToken : ThreadID -> Token -> option error; (* n.Validate *)
  pubKeys : ThreadID -> LogID -> Result (option string);   (* store.PubKey *)
  verifyErr : NetRecord -> string -> option error;   (* rec.Verify *)
  pushRecordErr : ThreadID -> LogID -> NetRecord -> option error
                                                     (* n.server.pushRecord *)
}.

Definition ErrLogNotFound : error := "log not found".

Definition MaxPullLimit : Z := 10000.

Section Exchange.

Variable net : Network.
Variable w : World.

(** [callablePeer], net.go:613 *)
Definition callablePeer (addr : Multiaddr) : Result (PeerID * bool) :=
  match valueForP2P net addr with
  | Err e => Err e
  | Ok p =>
      match peerDecode net p with
      | Err e => Err e
      | Ok pid =>
          if bool_decide (pid = hostID net) then Ok (pid, false)
          else Ok (pid, true)
      end
  end.

(** The first loop of [uniquePeers], net.go:595-604; [pm] is the map used
    as a set. *)
Fixpoint collectPeers (addrs : list Multiaddr) (pm : gset PeerID)
    : Result (gset PeerID) :=
  match addrs with
  | [] => Ok pm
  | addr :: rest =>
      match callablePeer addr with
      | Err e => Err e
      | Ok (_, false) => collectPeers rest pm
      | Ok (pid, true) => collectPeers rest ({[pid]} ∪ pm)
      end
  end.

(** [uniquePeers], net.go:593 *)
Definition uniquePeers (addrs : list Multiaddr) : Result (list PeerID) :=
  match collectPeers addrs ∅ with
  | Err e => Err e
  | Ok pm => Ok (elements pm)
  end.

(** [n.store.GetThread]: the logs of the thread, each with the head the
    head book holds for it. *)
Definition threadLogs (tid : ThreadID) : M (list LogInfo) :=
  fun s => match getThread net tid with
           | Err e => (s, Err e)
           | Ok logs =>
               (s, Ok (map (fun lg => mkLogInfo lg.1 (headOf s tid lg.1) lg.2)
                           logs))
           end.

(** The loop of [threadOffsets], net.go:1487-1501. *)
Fixpoint gatherOffsets (logs : list LogInfo) (offsets : gmap LogID Cid)
    (addrs : list Multiaddr) : M (gmap LogID Cid * list Multiaddr) :=
  match logs with
  | [] => ret (offsets, addrs)
  | lg :: rest =>
      let* has := if Defined (Head lg) then isKnown w (Head lg)
                  else ret false in
      gatherOffsets rest
        (<[ID lg := if has then Head lg else Undef]> offsets)
        (addrs ++ Addrs lg)
  end.

(** [threadOffsets], net.go:1478 *)
Definition threadOffsets (tid : ThreadID)
    : M (gmap LogID Cid * list PeerID) :=
  let* logs := threadLogs tid in
  let* gathered := gatherOffsets logs ∅ [] in
  let* peers := lift (uniquePeers gathered.2) in
  ret (gathered.1, peers).

(** The loop over the reply, net.go:428-432 and 1461-1465; [failed] is the
    text put before an error of [putRecords]. *)
Fixpoint putAll (failed : LogID -> string) (fuel : nat) (tid : ThreadID)
    (recs : Reply) (s : State) : option (State * option error) :=
  match recs with
  | [] => Some (s, None)
  | (lid, rs) :: rest =>
      match putRecords w fuel tid lid rs s with
      | None => None
      | Some (s', Some e) => Some (s', Some (failed lid +:+ e))
      | Some (s', None) => putAll failed fuel tid rest s'
      end
  end.

(** [pullThread], net.go:416 *)
Definition pullThread (fuel : nat) (tid : ThreadID) (s : State)
    : option (State * option error) :=
  match threadOffsets tid s with
  | (s1, Err e) => Some (s1, Some e)
  | (s1, Ok (offsets, peers)) =>
      match getRecords net peers tid offsets MaxPullLimit with
      | Err e => Some (s1, Some e)
      | Ok recs => putAll (fun _ => "") fuel tid recs s1
      end
  end.


(** What [AddRecord] leaves behind: the state, the records handed to
    [pushRecord], and the error it returns. *)
Definition Added : Type :=
  State * list (ThreadID * LogID * NetRecord) * option error.

(** [AddRecord], net.go:684 *)
Definition AddRecord (fuel : nat) (tid : ThreadID) (lid : LogID)
    (rec : NetRecord) (token : Token) (s : State) : option Added :=
  match validateToken net tid token with
  | Some e => Some (s, [], Some e)
  | None =>
      match pubKeys net tid lid with
      | Err e => Some (s, [], Some e)
      | Ok None => Some (s, [], Some ErrLogNotFound)
      | Ok (Some logpk) =>
          match isKnown w (RecordCid rec) s with
          | (s1, Err e) => Some (s1, [], Some e)
          | (s1, Ok true) => Some (s1, [], None)
          | (s1, Ok false) =>
              match verifyErr net rec logpk with
              | Some e => Some (s1, [], Some e)
              | None =>
                  match putRecords w fuel tid lid [rec] s1 with
                  | None => None
                  | Some (s2, Some e) => Some (s2, [], Some e)
                  | Some (s2, None) =>
                      Some (s2, [(tid, lid, rec)],
                            pushRecordErr net tid lid rec)
                  end
              end
          end
      end
  end.

End Exchange.

(** ** A sample network

    The host is ["me"]; an address is the peer it leads to, and the address
    ["bad"] cannot be parsed.  Thread ["t"] has the logs ["l"] and ["m"]. *)

Definition sampleReply : Reply :=
  [("l", threeRecords); ("m", [sampleRecord 5])].

Definition sampleNetwork (reply : Reply) : Network :=
  mkNetwork "me"
    (fun addr => if bool_decide (addr = "bad") then Err "no p2p part"
                 else Ok addr)
    (fun p => Ok p)
    (fun _ => Ok [("l", ["me"; "peer1"]); ("m", ["peer2"; "peer1"])])
    (fun _ _ _ _ => Ok reply)
    (fun _ => None)
    (fun _ _ _ _ => Ok reply)
    (fun _ token => if bool_decide (token = "valid") then None
                    else Some "invalid token")
    (fun _ _ => Ok (Some "author"))
    (fun r pk => if bool_decide (PubKey r = pk) then None
                 else Some "bad signature")
    (fun _ _ _ => None).

(** The offsets and peers of thread ["t"] once records 1, 2, 3 of log
    ["l"] are settled. *)
Definition sampleOffsets : gmap LogID Cid * list PeerID :=
  match (threadOffsets (sampleNetwork sampleReply) quietWorld "t"
           settledState).2 with
  | Ok found => found
  | Err _ => (∅, [])
  end.

(** The offsets and peers of thread ["t"] in state [s]. *)
Definition sampleOffsetsIn (s : State) : gmap LogID Cid * list PeerID :=
  match (threadOffsets (sampleNetwork sampleReply) quietWorld "t" s).2 with
  | Ok found => found
  | Err _ => (∅, [])
  end.

(** A first pull of thread ["t"]. *)
Definition pulledState : State :=
  stateOf (pullThread (sampleNetwork sampleReply) quietWorld 5 "t" emptyState).

(** Record 1 is added to log ["l"] with a valid token. *)
Definition sampleAdded : option Added :=
  AddRecord (sampleNetwork sampleReply) quietWorld 5 "t" "l" (sampleRecord 1)
            "valid" emptyState.

Definition addedState : State :=
  match sampleAdded with
  | Some (s, _, _) => s
  | None => emptyState
  end.

(** While records 1, 2, 3 are loaded, another worker moves the head of the
    log to a record that is not among them; it writes nothing else. *)
Definition moveHeadAway (s : State) : State :=
  mkState (bstore s) (<[("t", "l") := [CidOf 7]]> (heads s)) (bus s) (calls s).

Definition strayWorld : World := withConcurrent moveHeadAway quietWorld.

Definition strayLoaded : State :=
  loadedState (loadRecords strayWorld 5 "t" "l" threeRecords emptyState).

Definition strayRun : option (State * option error) :=
  putRecords strayWorld 5 "t" "l" threeRecords emptyState.

(** The run of [poisonRun] repeated once the handler works again. *)
Definition healedRerun : option (State * option error) :=
  putRecords healedWorld 5 "t" "l" threeRecords (stateOf poisonRun).

(** * Proofs *)

(** ** Reads leave the state alone *)

Lemma bind_inv {A B} (m : M A) (k : A -> M B) s s2 r :
  bind m k s = (s2, r) →
  (∃ a s1, m s = (s1, Ok a) ∧ k a s1 = (s2, r)) ∨
  (∃ e, m s = (s2, Err e) ∧ r = Err e).
Proof.
  unfold bind. destruct (m s) as [s1 [a|e]]; intros H.
  - left. eauto.
  - right. inversion H; subst. eauto.
Qed.

Lemma LoadFrame_refl s : LoadFrame s s.
Proof.
  split; try done. exists []. by rewrite app_nil_r.
Qed.

Lemma LoadFrame_trans s1 s2 s3 :
  LoadFrame s1 s2 → LoadFrame s2 s3 → LoadFrame s1 s3.
Proof.
  intros [H1 H2 H3 (cs & H4 & H5)] [G1 G2 G3 (ds & G4 & G5)]. split.
  - congruence.
  - congruence.
  - set_solver.
  - exists (cs ++ ds). split.
    + rewrite G4, H4. by rewrite app_assoc.
    + by apply Forall_app.
Qed.

Lemma dagGet_state w c s s' r : dagGet w c s = (s', r) → s' = s.
Proof.
  unfold dagGet, ret, fail. destruct (dag w c); intros H; by inversion H.
Qed.

Lemma cborGetRecord_state w c sk s s' r :
  cborGetRecord w c sk s = (s', r) → s' = s.
Proof.
  unfold cborGetRecord, bind, dagGet, ret, fail.
  destruct (dag w c) as [coded|]; [destruct (decrypt w sk coded) as [[| |]|]|];
    intros H; by inversion H.
Qed.

Lemma getRecord_state w tid c s s' r : getRecord w tid c s = (s', r) → s' = s.
Proof.
  unfold getRecord, bind, lift, fail.
  destruct (serviceKeys w tid) as [[k|]|e]; try (intros H; by inversion H).
  apply cborGetRecord_state.
Qed.

Lemma isKnown_state w c s s' r : isKnown w c s = (s', r) → s' = s.
Proof.
  unfold isKnown. destruct (hasErr w c); intros H; by inversion H.
Qed.

Lemma currentHead_state w tid lid s s' r :
  currentHead w tid lid s = (s', r) → s' = s.
Proof.
  unfold currentHead.
  destruct (headsErr w tid lid); [|destruct (heads s !! (tid, lid)) as [[|? ?]|]];
    intros H; by inversion H.
Qed.

Lemma bridge_state w fuel tid head c chain s s' r :
  bridge w fuel tid head c chain s = Some (s', r) → s' = s.
Proof.
  revert c chain s. induction fuel as [|fuel IH]; intros c chain s; simpl.
  - destruct (negb (Defined c)); [intros H; by inversion H|].
    destruct (Equals c head); intros H; by inversion H.
  - destruct (negb (Defined c)); [intros H; by inversion H|].
    destruct (Equals c head); [intros H; by inversion H|].
    destruct (getRecord w tid c s) as [s1 [rec|e]] eqn:E;
      apply getRecord_state in E; subst s1.
    + apply IH.
    + intros H; by inversion H.
Qed.

(** The first half of [loadRecords] only reads. *)
Lemma gatherChain_state w fuel tid lid recs s s' out :
  gatherChain w fuel tid lid recs s = Some (s', out) → s' = s.
Proof.
  unfold gatherChain. destruct (rev recs) as [|last before].
  { intros H; by inversion H. }
  destruct (isKnown w (RecordCid last) s) as [s1 [known|e]] eqn:E1;
    apply isKnown_state in E1; subst s1; [|intros H; by inversion H].
  destruct (known || negb (Defined (RecordCid last))); [intros H; by inversion H|].
  destruct (currentHead w tid lid s) as [s1 [head|e]] eqn:E2;
    apply currentHead_state in E2; subst s1; [|intros H; by inversion H].
  destruct (walkInputs head (last :: before) []) as [chain complete].
  destruct complete; [intros H; by inversion H|].
  destruct (bridge w fuel tid head _ chain s) as [[s1 [c|e]]|] eqn:E3;
    try apply bridge_state in E3; intros H; inversion H; by subst.
Qed.

(** ** The load phase *)

Lemma AddMany_frame w cs s s' r : AddMany w cs s = (s', r) → LoadFrame s s'.
Proof.
  unfold AddMany. destruct (addErr w cs); intros H; inversion H; subst; clear H.
  - split; simpl; try done. eexists [_]. split; [done|]. by constructor.
  - split; simpl; try done; [set_solver|].
    eexists [_]. split; [done|]. by constructor.
Qed.

Lemma validateBody_frame w conn key r body s s' res :
  validateBody w conn key r body s = (s', res) → LoadFrame s s'.
Proof.
  unfold validateBody, bind, lift, record, fail.
  destruct (decrypt w key body) as [dbody|]; simpl;
    [destruct (unmarshalIdentity w (PubKey r)) as [author|]; simpl;
     [destruct (ValidateNetRecordBody conn dbody author); simpl|]|];
    intros H; inversion H; subst; clear H;
    (split; simpl; try done); eexists;
    (split; [rewrite <- ?app_assoc; reflexivity|]); by repeat constructor.
Qed.

Lemma loadRecord_frame w tid lid v r s s' res :
  loadRecord w tid lid v r s = (s', res) → LoadFrame s s'.
Proof.
  unfold loadRecord. intros H.
  apply bind_inv in H as [(blk & s1 & H1 & H2)|(e & H1 & _)];
    apply dagGet_state in H1; subst; [|apply LoadFrame_refl].
  destruct blk as [| headerID bodyID |];
    try (unfold fail in H2; inversion H2; subst; apply LoadFrame_refl).
  apply bind_inv in H2 as [(hd & s1 & H1 & H2)|(e & H1 & _)];
    apply dagGet_state in H1; subst; [|apply LoadFrame_refl].
  apply bind_inv in H2 as [(bd & s1 & H1 & H2)|(e & H1 & _)];
    apply dagGet_state in H1; subst; [|apply LoadFrame_refl].
  apply bind_inv in H2 as [(u & s1 & H1 & H2)|(e & H1 & _)].
  - assert (LoadFrame s s1) as F1.
    { destruct v as [[conn key]|].
      - by eapply validateBody_frame.
      - unfold ret in H1. inversion H1. apply LoadFrame_refl. }
    apply (LoadFrame_trans _ _ _ F1).
    apply bind_inv in H2 as [(u2 & s2 & H2 & H3)|(e & H2 & _)].
    + unfold ret in H3. inversion H3; subst. by eapply AddMany_frame.
    + by eapply AddMany_frame.
  - destruct v as [[conn key]|].
    + by eapply validateBody_frame.
    + unfold ret in H1. inversion H1.
Qed.

Lemma loadChain_frame w tid lid v rs acc s s' res :
  loadChain w tid lid v rs acc s = (s', res) → LoadFrame s s'.
Proof.
  revert acc s. induction rs as [|r rs IH]; intros acc s; simpl.
  - unfold ret. intros H; inversion H. apply LoadFrame_refl.
  - intros H. apply bind_inv in H as [(tr & s1 & H1 & H2)|(e & H1 & _)].
    + eapply LoadFrame_trans; [by eapply loadRecord_frame|by eapply IH].
    + by eapply loadRecord_frame.
Qed.

Lemma validation_state w tid s s' r : validation w tid s = (s', r) → s' = s.
Proof.
  unfold validation, bind, lift, ret.
  destruct (connectors w tid); [|intros H; by inversion H].
  destruct (readKeys w tid) as [[k|]|e]; intros H; by inversion H.
Qed.

(** [loadRecords] never touches a head or the bus. *)
Lemma loadRecords_frame w fuel tid lid recs s s' out :
  loadRecords w fuel tid lid recs s = Some (s', out) → LoadFrame s s'.
Proof.
  unfold loadRecords.
  destruct (gatherChain w fuel tid lid recs s) as [[s1 [[chain head] err]]|] eqn:G;
    [|done].
  apply gatherChain_state in G; subst s1.
  destruct err as [e|].
  { destruct chain; intros H; inversion H; apply LoadFrame_refl. }
  destruct chain as [|r0 chain].
  { intros H; inversion H. apply LoadFrame_refl. }
  destruct (bind _ _ s) as [s2 res] eqn:B. intros H.
  assert (s' = s2) as -> by (destruct res; by inversion H).
  apply bind_inv in B as [(v & s1 & B1 & B2)|(e & B1 & _)];
    apply validation_state in B1; subst; [|apply LoadFrame_refl].
  by eapply loadChain_frame.
Qed.

Lemma loadRecord_rejected w tid lid conn key r s :
  bodyRejected w conn key r = true →
  ∃ s' e, loadRecord w tid lid (Some (conn, key)) r s = (s', Err e).
Proof.
  unfold bodyRejected, loadRecord, bind, dagGet, ret, fail.
  destruct (dag w (BlockID r)) as [[| headerID bodyID |]|]; try done.
  destruct (dag w bodyID) as [body|] eqn:Eb; [|done].
  destruct (decrypt w key body) as [dbody|] eqn:Ed; [|done].
  destruct (unmarshalIdentity w (PubKey r)) as [author|] eqn:Eu; [|done].
  destruct (ValidateNetRecordBody conn dbody author) as [e|] eqn:Ev; [|done].
  intros _. destruct (dag w headerID); [|by eauto].
  unfold validateBody, bind, lift, record, fail. rewrite Ed, Eu, Ev.
  simpl. by eauto.
Qed.

Lemma loadChain_rejected w tid lid conn key rs r acc s :
  r ∈ rs → bodyRejected w conn key r = true →
  ∃ s' e, loadChain w tid lid (Some (conn, key)) rs acc s = (s', Err e).
Proof.
  revert acc s. induction rs as [|r0 rs IH]; intros acc s Hin Hrej.
  - by apply elem_of_nil in Hin.
  - simpl. unfold bind at 1.
    destruct (loadRecord w tid lid (Some (conn, key)) r0 s) as [s1 [tr|e]] eqn:E.
    + apply elem_of_cons in Hin as [->|Hin].
      * destruct (loadRecord_rejected w tid lid conn key r0 s Hrej) as (? & ? & E').
        congruence.
      * by apply IH.
    + eauto.
Qed.

(** C10: the empty record list is an error, and nothing is touched. *)
Theorem C10_empty_chain_is_an_error (w : World) (fuel : nat)
    (tid : ThreadID) (lid : LogID) (s : State) :
  putRecords w fuel tid lid [] s =
    Some (s, Some ("loading records failed: " +:+ "cannot load empty record chain")).
Proof. reflexivity. Qed.

Lemma C10_sample :
  putRecords poisonWorld 0 "t" "l" [] emptyState =
    Some (emptyState, Some "loading records failed: cannot load empty record chain").
Proof. reflexivity. Qed.

(** The early return of [loadRecords], net.go:962-968. *)
Lemma known_last_returns_at_once w fuel tid lid recs final s :
  last recs = Some final →
  hasErr w (RecordCid final) = None →
  RecordCid final ∈ bstore s ∨ Defined (RecordCid final) = false →
  putRecords w fuel tid lid recs s = Some (s, None).
Proof.
  intros Hlast Hhas Hcase.
  apply last_Some in Hlast as [before ->].
  unfold putRecords, loadRecords, gatherChain.
  rewrite rev_unit. unfold isKnown. rewrite Hhas.
  destruct Hcase as [Hin|Hundef].
  - by rewrite bool_decide_eq_true_2.
  - rewrite Hundef. by rewrite orb_true_r.
Qed.

(** C7: when the last record of the input is already in the blockstore, or
    its CID is undefined, [putRecords] returns nil and hands back the state
    it was given: no semaphore call, no head, blockstore or bus write. *)
Theorem C7_fast_exit_by_last_cid (w : World) (fuel : nat) (tid : ThreadID)
    (lid : LogID) (recs : list NetRecord) (final : NetRecord) (s : State) :
  last recs = Some final →
  hasErr w (RecordCid final) = None →
  RecordCid final ∈ bstore s ∨ Defined (RecordCid final) = false →
  putRecords w fuel tid lid recs s = Some (s, None).
Proof. apply known_last_returns_at_once. Qed.

Lemma C7_fast_exit_by_last_cid_witness :
  last [sampleRecord 2; sampleRecord 1] = Some (sampleRecord 1) ∧
  hasErr poisonWorld (RecordCid (sampleRecord 1)) = None ∧
  RecordCid (sampleRecord 1) ∈ bstore (otherWorkerCommits (sampleRecord 1) emptyState) ∧
  putRecords poisonWorld 0 "t" "l" [sampleRecord 2; sampleRecord 1]
             (otherWorkerCommits (sampleRecord 1) emptyState) =
    Some (otherWorkerCommits (sampleRecord 1) emptyState, None).
Proof.
  assert (RecordCid (sampleRecord 1)
            ∈ bstore (otherWorkerCommits (sampleRecord 1) emptyState)) as Hin
    by (simpl; set_solver).
  split; [reflexivity|]. split; [reflexivity|]. split; [exact Hin|].
  apply (C7_fast_exit_by_last_cid poisonWorld 0 "t" "l"
           [sampleRecord 2; sampleRecord 1] (sampleRecord 1));
    [reflexivity | reflexivity | left; exact Hin].
Defined.

(** C1: with a connector attached and a read-key at hand, a record of the
    chain whose body the connector rejects makes [putRecords] return an
    error, and no head of the logstore has moved. *)
Theorem C1_rejected_body_aborts_before_head (w : World) (fuel : nat)
    (tid : ThreadID) (lid : LogID) (recs : list NetRecord) (s : State)
    (conn : Connector) (key : Key) (chain : list NetRecord) (head : Cid)
    (r : NetRecord) :
  connectors w tid = Some conn →
  readKeys w tid = Ok (Some key) →
  gatherChain w fuel tid lid recs s = Some (s, (chain, head, None)) →
  r ∈ chain →
  bodyRejected w conn key r = true →
  ∃ s' e,
    putRecords w fuel tid lid recs s =
      Some (s', Some ("loading records failed: " +:+ e)) ∧
    heads s' = heads s ∧
    headOf s' tid lid = headOf s tid lid ∧
    bus s' = bus s.
Proof.
  intros Hconn Hkey Hgather Hin Hrej.
  assert (∃ s' e, loadRecords w fuel tid lid recs s = Some (s', ([], head, Some e)))
    as (s' & e & Hload).
  { unfold loadRecords. rewrite Hgather.
    destruct chain as [|r0 chain]; [by apply elem_of_nil in Hin|].
    unfold bind at 1. unfold validation. rewrite Hconn.
    unfold bind at 1, lift. rewrite Hkey. unfold ret.
    destruct (loadChain_rejected w tid lid conn key (rev (r0 :: chain)) r [] s)
      as (s' & e & E); [|done|].
    { apply list_elem_of_In, in_rev. rewrite rev_involutive.
      by apply list_elem_of_In. }
    rewrite E. eauto. }
  exists s', e. pose proof (loadRecords_frame _ _ _ _ _ _ _ _ Hload) as [Hh Hb _ _].
  unfold putRecords. rewrite Hload. unfold headOf. rewrite Hh. done.
Qed.

Lemma C1_rejected_body_aborts_before_head_witness :
  connectors strictWorld "t" = Some strictConnector ∧
  readKeys strictWorld "t" = Ok (Some 8%N) ∧
  gatherChain strictWorld 5 "t" "l" threeRecords emptyState =
    Some (emptyState,
          ([sampleRecord 3; sampleRecord 2; sampleRecord 1], Undef, None)) ∧
  sampleRecord 2 ∈ [sampleRecord 3; sampleRecord 2; sampleRecord 1] ∧
  bodyRejected strictWorld strictConnector 8%N (sampleRecord 2) = true ∧
  ∃ s' e,
    putRecords strictWorld 5 "t" "l" threeRecords emptyState =
      Some (s', Some ("loading records failed: " +:+ e)) ∧
    heads s' = heads emptyState ∧
    headOf s' "t" "l" = headOf emptyState "t" "l" ∧
    bus s' = bus emptyState.
Proof.
  assert (sampleRecord 2 ∈ [sampleRecord 3; sampleRecord 2; sampleRecord 1])
    as Hin by (apply list_elem_of_In; simpl; tauto).
  split; [reflexivity|]. split; [reflexivity|]. split; [reflexivity|].
  split; [exact Hin|]. split; [reflexivity|].
  apply (C1_rejected_body_aborts_before_head strictWorld 5 "t" "l" threeRecords
           emptyState strictConnector 8%N
           [sampleRecord 3; sampleRecord 2; sampleRecord 1] Undef
           (sampleRecord 2)); [reflexivity | reflexivity | reflexivity | exact Hin
                             | reflexivity].
Defined.

(** ** The head recheck *)

Lemma fastForward_found current before tr after :
  cidOf tr = current →
  Forall (λ x, cidOf x ≠ current) before →
  fastForward current (before ++ tr :: after) = Some after.
Proof.
  intros Htr. induction 1 as [|x before Hx _ IH]; simpl.
  - unfold Equals. fold (cidOf tr). by rewrite bool_decide_eq_true_2.
  - unfold Equals. fold (cidOf x). by rewrite bool_decide_eq_false_2.
Qed.

Lemma fastForward_missing current chain :
  Forall (λ x, cidOf x ≠ current) chain → fastForward current chain = None.
Proof.
  induction 1 as [|x chain Hx _ IH]; simpl; [done|].
  unfold Equals. fold (cidOf x). by rewrite bool_decide_eq_false_2.
Qed.

Lemma commitRecord_writes w tid lid tr s s1 r1 :
  commitRecord w tid lid tr s = (s1, r1) →
  ∃ cs1 : list Call, calls s1 = calls s ++ cs1 ∧
    match r1 with
    | Ok _ => headWrites cs1 = [cidOf tr] ∧ bus s1 = bus s ++ [tr]
    | Err _ => headWrites cs1 `prefix_of` [cidOf tr] ∧ bus s1 = bus s
    end.
Proof.
  commit_cases w tid lid tr; intros H; inversion H; subst; simpl;
    eexists; (split; [rewrite <- ?app_assoc; simpl; reflexivity|]);
    simpl; split; try done; try apply prefix_nil.
Qed.

Lemma commitRecords_writes w tid lid chain s s' r :
  commitRecords w tid lid chain s = (s', r) →
  ∃ cs : list Call, calls s' = calls s ++ cs ∧
    headWrites cs `prefix_of` map cidOf chain ∧
    (∀ u, r = Ok u → headWrites cs = map cidOf chain ∧ bus s' = bus s ++ chain).
Proof.
  revert s. induction chain as [|tr chain IH]; intros s; simpl.
  - unfold ret. intros H; inversion H; subst. exists []. rewrite !app_nil_r.
    by repeat split.
  - intros H. apply bind_inv in H as [(u1 & s1 & H1 & H2)|(e & H1 & ->)].
    + apply commitRecord_writes in H1 as (cs1 & Hc1 & Hw1 & Hb1).
      apply IH in H2 as (cs2 & Hc2 & Hw2 & Hok).
      exists (cs1 ++ cs2). split; [|split].
      * rewrite Hc2, Hc1. by rewrite app_assoc.
      * unfold headWrites in *. rewrite omap_app, Hw1. simpl.
        by apply prefix_cons.
      * intros u Hu. destruct (Hok u Hu) as [E1 E2].
        unfold headWrites in *. rewrite omap_app, Hw1, E1, E2, Hb1.
        by rewrite <- app_assoc.
    + apply commitRecord_writes in H1 as (cs1 & Hc1 & Hw1 & Hb1).
      exists cs1. split; [done|]. split; [|done].
      destruct Hw1 as [k Hk]. exists (k ++ map cidOf chain).
      simpl. rewrite app_assoc, <- Hk. done.
Qed.

(** C2 (as the code has it): under the semaphore the head is read again.
    When it differs from the head [loadRecords] saw, the commit loop runs on
    exactly the records after the first one whose CID is the current head;
    when no record of the chain has that CID, nil is returned and nothing is
    done under the semaphore: the state is the one found there, in which the
    inner blocks that [loadRecords] stored before the semaphore remain. *)
Theorem C2_head_recheck_fast_forward (w : World) (fuel : nat) (tid : ThreadID)
    (lid : LogID) (recs : list NetRecord) (s s1 : State)
    (chain : list ThreadRecord) (head : Cid) :
  loadRecords w fuel tid lid recs s = Some (s1, (chain, head, None)) →
  chain ≠ [] →
  headsErr w tid lid = None →
  headOf (interfere w s1) tid lid ≠ head →
  let s2 := Acquire tid (interfere w s1) in
  let current := headOf (interfere w s1) tid lid in
  (∀ before tr after,
     chain = before ++ tr :: after →
     cidOf tr = current →
     Forall (λ x, cidOf x ≠ current) before →
     ∃ s3 res (cs : list Call),
       commitRecords w tid lid after s2 = (s3, res) ∧
       putRecords w fuel tid lid recs s = Some (released tid (s3, res)) ∧
       calls s3 = calls s2 ++ cs ∧
       headWrites cs `prefix_of` map cidOf after ∧
       (∀ u, res = Ok u →
          headWrites cs = map cidOf after ∧ bus s3 = bus s2 ++ after)) ∧
  (Forall (λ x, cidOf x ≠ current) chain →
     putRecords w fuel tid lid recs s = Some (Release tid s2, None) ∧
     calls (Release tid s2)
       = calls s1 ++ [AcquireCall (semaKey tid); ReleaseCall (semaKey tid)] ∧
     LoadFrame s s1).
Proof.
  intros Hload Hne Hheads Hmoved s2 current.
  assert (putRecords w fuel tid lid recs s =
          Some (released tid (putRecordsLocked w tid lid chain head s2))) as Hput.
  { unfold putRecords. rewrite Hload. by destruct chain. }
  assert (∀ rest,
            fastForward current chain = rest →
            putRecordsLocked w tid lid chain head s2 =
              match rest with
              | Some rest => commitRecords w tid lid rest s2
              | None => (s2, Ok tt)
              end) as Hlocked.
  { intros rest <-. unfold putRecordsLocked, bind, wrap, currentHead.
    rewrite Hheads. fold (headOf s2 tid lid).
    replace (heads s2 !! (tid, lid)) with (heads (interfere w s1) !! (tid, lid))
      by done.
    assert (Equals current head = false) as Heq
      by (unfold Equals; by rewrite bool_decide_eq_false_2).
    unfold current, headOf in *.
    destruct (heads (interfere w s1) !! (tid, lid)) as [[|h ?]|];
      simpl; rewrite Heq; simpl; by destruct (fastForward _ chain). }
  split.
  - intros before tr after -> Htr Hbefore.
    destruct (commitRecords w tid lid after s2) as [s3 res] eqn:Hc.
    exists s3, res.
    destruct (commitRecords_writes _ _ _ _ _ _ _ Hc) as (cs & Hcs & Hpre & Hok).
    exists cs. split; [done|]. split; [|done].
    rewrite Hput, (Hlocked (Some after)), Hc; [done|].
    by apply fastForward_found.
  - intros Hnone. split; [|split].
    + rewrite Hput, (Hlocked None); [done|]. by apply fastForward_missing.
    + simpl. by rewrite <- app_assoc.
    + by eapply loadRecords_frame.
Qed.

Lemma C2_head_recheck_fast_forward_witness :
  loadRecords racingWorld 5 "t" "l" threeRecords emptyState =
    Some (racingLoaded,
          ([sampleThreadRecord 1; sampleThreadRecord 2; sampleThreadRecord 3],
           Undef, None)) ∧
  [sampleThreadRecord 1; sampleThreadRecord 2; sampleThreadRecord 3] ≠ [] ∧
  headsErr racingWorld "t" "l" = None ∧
  headOf (interfere racingWorld racingLoaded) "t" "l" ≠ Undef ∧
  putRecords racingWorld 5 "t" "l" threeRecords emptyState =
    Some (released "t"
            (commitRecords racingWorld "t" "l"
               [sampleThreadRecord 2; sampleThreadRecord 3]
               (Acquire "t" (interfere racingWorld racingLoaded)))).
Proof.
  assert (loadRecords racingWorld 5 "t" "l" threeRecords emptyState =
            Some (racingLoaded,
                  ([sampleThreadRecord 1; sampleThreadRecord 2; sampleThreadRecord 3],
                   Undef, None))) as Hload by (vm_compute; reflexivity).
  assert (headOf (interfere racingWorld racingLoaded) "t" "l" = CidOf 1) as Hcur
    by (vm_compute; reflexivity).
  assert (headOf (interfere racingWorld racingLoaded) "t" "l" ≠ Undef) as Hne
    by (rewrite Hcur; discriminate).
  split; [exact Hload|]. split; [discriminate|]. split; [reflexivity|].
  split; [exact Hne|].
  destruct (C2_head_recheck_fast_forward racingWorld 5 "t" "l" threeRecords
              emptyState racingLoaded _ Undef Hload ltac:(discriminate)
              eq_refl Hne) as [Hfound _].
  destruct (Hfound [] (sampleThreadRecord 1)
              [sampleThreadRecord 2; sampleThreadRecord 3] eq_refl
              (eq_sym Hcur) (Forall_nil_2 _))
    as (s3 & res & cs & Hc & Hp & _).
  rewrite Hp, Hc. reflexivity.
Defined.

(** C2, as the spec words it, fails: another worker moves the head to a
    record that is not in the chain and writes nothing else; the run returns
    nil, yet the event, header and body blocks of records 1, 2, 3 have
    entered the blockstore, which was empty. *)
Lemma C2_missed_head_keeps_loaded_blocks :
  (∀ x, bstore (concurrent strayWorld x) = bstore x) ∧
  loadRecords strayWorld 5 "t" "l" threeRecords emptyState =
    Some (strayLoaded,
          ([sampleThreadRecord 1; sampleThreadRecord 2; sampleThreadRecord 3],
           Undef, None)) ∧
  headOf (interfere strayWorld strayLoaded) "t" "l" = CidOf 7 ∧
  Forall (λ x, cidOf x ≠ CidOf 7)
         [sampleThreadRecord 1; sampleThreadRecord 2; sampleThreadRecord 3] ∧
  strayRun = Some (stateOf strayRun, None) ∧
  bstore emptyState = ∅ ∧
  bstore (stateOf strayRun) =
    list_to_set [CidOf 11; CidOf 12; CidOf 13; CidOf 21; CidOf 22; CidOf 23;
                 CidOf 31; CidOf 32; CidOf 33] ∧
  CidOf 11 ∈ bstore (stateOf strayRun).
Proof.
  split; [reflexivity|].
  split; [vm_compute; reflexivity|].
  split; [vm_compute; reflexivity|].
  split; [repeat constructor; discriminate|].
  split; [vm_compute; reflexivity|].
  split; [reflexivity|].
  split; [vm_compute; reflexivity|].
  apply (bool_decide_eq_true_1 (CidOf 11 ∈ bstore (stateOf strayRun))).
  vm_compute. reflexivity.
Qed.

(** ** The commit loop, call by call *)

Lemma commitRecord_block w tid lid tr s s1 r1 :
  commitRecord w tid lid tr s = (s1, r1) →
  ∃ blk : list Call, calls s1 = calls s ++ blk ∧ Block w tid lid tr s s1 r1 blk.
Proof.
  commit_cases w tid lid tr; intros H; inversion H; subst; clear H;
    eexists; (split; [simpl; rewrite <- ?app_assoc; simpl; reflexivity|]).
  all: first
    [ epose proof (block_sethead w tid lid tr s _ _) as B; use_block B
    | epose proof (block_handle w tid lid tr s _ _ _) as B; use_block B
    | epose proof (block_add w tid lid tr s _ _) as B; use_block B
    | epose proof (block_send w tid lid tr s _ _) as B; use_block B
    | epose proof (block_done w tid lid tr s _) as B; use_block B ].
Qed.

Lemma commitRecords_blocks w tid lid chain s s' r :
  commitRecords w tid lid chain s = (s', r) →
  ∃ cc : list Call, calls s' = calls s ++ cc ∧ Blocks w tid lid chain s s' r cc.
Proof.
  revert s. induction chain as [|tr chain IH]; intros s; simpl.
  - unfold ret. intros H; inversion H; subst. exists []. rewrite app_nil_r.
    split; [done|]. by constructor.
  - intros H. apply bind_inv in H as [([] & s1 & H1 & H2)|(e & H1 & ->)].
    + apply commitRecord_block in H1 as (blk & Hc1 & Hb1).
      apply IH in H2 as (cc & Hc2 & Hb2).
      exists (blk ++ cc). split.
      * rewrite Hc2, Hc1. by rewrite app_assoc.
      * by eapply blocks_turn.
    + apply commitRecord_block in H1 as (blk & Hc1 & Hb1).
      exists blk. split; [done|]. by eapply blocks_stop.
Qed.

(** Where an element of an append sits. *)
Lemma app_split_at {A} (l1 l2 pre : list A) (c : A) (post : list A) :
  l1 ++ l2 = pre ++ c :: post →
  (∃ mid, l1 = pre ++ c :: mid ∧ post = mid ++ l2) ∨
  (∃ mid, pre = l1 ++ mid ∧ l2 = mid ++ c :: post).
Proof.
  revert pre. induction l1 as [|x l1 IH]; intros pre H; simpl in H.
  - right. by exists pre.
  - destruct pre as [|y pre]; simpl in H; injection H as -> H.
    + left. by exists l1.
    + destruct (IH pre H) as [(mid & -> & ->)|(mid & -> & ->)].
      * left. by exists mid.
      * right. by exists mid.
Qed.

Lemma locate_call (Q : Call → Prop) (A cc B pre : list Call) (c : Call)
    (post : list Call) :
  Forall (λ x, ¬ Q x) A → Forall (λ x, ¬ Q x) B →
  A ++ cc ++ B = pre ++ c :: post → Q c →
  ∃ pre0 post0, cc = pre0 ++ c :: post0 ∧ pre = A ++ pre0 ∧ post = post0 ++ B.
Proof.
  intros HA HB E Hq.
  apply app_split_at in E as [(mid & -> & _)|(mid & -> & E)].
  { rewrite Forall_app, Forall_cons in HA. by destruct HA as (_ & ? & _). }
  apply app_split_at in E as [(mid' & -> & ->)|(mid' & -> & ->)].
  - by exists mid, mid'.
  - rewrite Forall_app, Forall_cons in HB. by destruct HB as (_ & ? & _).
Qed.

Lemma headOf_insert s s1 tid lid c :
  heads s1 = <[(tid, lid) := [c]]> (heads s) → headOf s1 tid lid = c.
Proof. unfold headOf. intros ->. by rewrite lookup_insert_eq. Qed.

Lemma Block_handle_position w tid lid tr s s1 r blk pre tr' ok post :
  Block w tid lid tr s s1 r blk →
  blk = pre ++ HandleCall tr' ok :: post →
  tr' = tr ∧ pre = [SetHeadCall tid lid (cidOf tr) true].
Proof.
  intros Hb E. destruct Hb; unfold handled in E;
    try destruct (connectors w tid); simpl in E; positions E;
    subst; try discriminate; simplify_eq; done.
Qed.

Lemma Block_handle_failed w tid lid tr s s1 r blk pre tr' post :
  Block w tid lid tr s s1 r blk →
  blk = pre ++ HandleCall tr' false :: post →
  tr' = tr ∧ post = [] ∧ headOf s1 tid lid = cidOf tr ∧
  ∃ conn e, connectors w tid = Some conn ∧ HandleNetRecord conn tr = Some e ∧
            r = Err ("handling record failed: " +:+ e).
Proof.
  intros Hb E. destruct Hb; unfold handled in E;
    try destruct (connectors w tid) eqn:?; simpl in E; positions E;
    subst; try discriminate; simplify_eq.
  repeat split; try done; [by eapply headOf_insert|]. by eauto.
Qed.

(** In the commit loop every [HandleNetRecord] call comes right after the
    successful [SetHead] of the same record. *)
Lemma Blocks_handle_after_sethead w tid lid chain s s' r cc pre tr ok post :
  Blocks w tid lid chain s s' r cc →
  cc = pre ++ HandleCall tr ok :: post →
  ∃ pre', pre = pre' ++ [SetHeadCall tid lid (cidOf tr) true].
Proof.
  intros Hb. revert pre. induction Hb as [| tr0 chain s s1 s' r blk cc B _ IH
                                          | tr0 chain s s1 e blk B]; intros pre E.
  - by destruct pre.
  - apply app_split_at in E as [(mid & E & _)|(mid & -> & E)].
    + destruct (Block_handle_position _ _ _ _ _ _ _ _ _ _ _ _ B E) as [-> ->].
      by exists [].
    + destruct (IH _ E) as [pre' ->]. exists (blk ++ pre'). by rewrite app_assoc.
  - destruct (Block_handle_position _ _ _ _ _ _ _ _ _ _ _ _ B E) as [-> ->].
    by exists [].
Qed.

(** A failed [HandleNetRecord] is the last call of the commit loop; the head
    stays on the failing record and the handler's error is returned. *)
Lemma Blocks_handle_failed w tid lid chain s s' r cc pre tr post :
  Blocks w tid lid chain s s' r cc →
  cc = pre ++ HandleCall tr false :: post →
  post = [] ∧ headOf s' tid lid = cidOf tr ∧
  ∃ conn e, connectors w tid = Some conn ∧ HandleNetRecord conn tr = Some e ∧
            r = Err ("handling record failed: " +:+ e).
Proof.
  intros Hb. revert pre. induction Hb as [| tr0 chain s s1 s' r blk cc B _ IH
                                          | tr0 chain s s1 e blk B]; intros pre E.
  - by destruct pre.
  - apply app_split_at in E as [(mid & E & _)|(mid & -> & E)].
    + destruct (Block_handle_failed _ _ _ _ _ _ _ _ _ _ _ B E)
        as (_ & _ & _ & ? & ? & _ & _ & ?). discriminate.
    + by eapply IH.
  - destruct (Block_handle_failed _ _ _ _ _ _ _ _ _ _ _ B E) as (-> & ? & ? & ?).
    done.
Qed.

Lemma fastForward_suffix current chain rest :
  fastForward current chain = Some rest → rest `suffix_of` chain.
Proof.
  induction chain as [|tr chain IH]; simpl; [done|].
  destruct (Equals (RecordCid (Value tr)) current).
  - intros H; inversion H; subst. by apply suffix_cons_r.
  - intros H. by apply suffix_cons_r, IH.
Qed.

Lemma putRecordsLocked_cases w tid lid chain head s2 s3 r :
  putRecordsLocked w tid lid chain head s2 = (s3, r) →
  (s3 = s2 ∧ ∃ e, headsErr w tid lid = Some e ∧
                   r = Err ("fetching head failed: " +:+ e)) ∨
  (∃ todo, todo `suffix_of` chain ∧ commitRecords w tid lid todo s2 = (s3, r)).
Proof.
  unfold putRecordsLocked, bind, wrap.
  destruct (currentHead w tid lid s2) as [s2' [current|e]] eqn:E.
  - apply currentHead_state in E as ->.
    destruct (negb (Equals current head)).
    + destruct (fastForward current chain) as [rest|] eqn:F.
      * intros H. right. exists rest. split; [|done].
        by eapply fastForward_suffix.
      * intros H. right. exists []. split; [apply suffix_nil|done].
    + intros H. right. by exists chain.
  - intros H; inversion H; subst; clear H. left.
    pose proof (currentHead_state _ _ _ _ _ _ E) as ->. split; [done|].
    exists e. split; [|done]. unfold currentHead in E.
    destruct (headsErr w tid lid); [by inversion E|].
    destruct (heads s2 !! (tid, lid)) as [[|? ?]|]; by inversion E.
Qed.

Lemma putRecords_cases w fuel tid lid recs s s' res :
  putRecords w fuel tid lid recs s = Some (s', res) →
  (LoadFrame s s' ∧
   ∃ chain head err, loadRecords w fuel tid lid recs s = Some (s', (chain, head, err)) ∧
     (err = None → chain = [] ∧ res = None)) ∨
  (∃ s1 chain head s3 r,
     loadRecords w fuel tid lid recs s = Some (s1, (chain, head, None)) ∧
     chain ≠ [] ∧ LoadFrame s s1 ∧
     putRecordsLocked w tid lid chain head (Acquire tid (interfere w s1)) = (s3, r) ∧
     s' = Release tid s3 ∧ res = outcome r).
Proof.
  unfold putRecords.
  destruct (loadRecords w fuel tid lid recs s) as [[s1 [[chain head] err]]|] eqn:L;
    [|done].
  pose proof (loadRecords_frame _ _ _ _ _ _ _ _ L) as F.
  destruct err as [e|].
  { intros H. assert (s' = s1) as -> by (destruct chain; by inversion H).
    left. split; [done|]. by exists chain, head, (Some e). }
  destruct chain as [|tr chain].
  { intros H; inversion H; subst. left. split; [done|].
    by exists [], head, None. }
  destruct (putRecordsLocked _ _ _ _ _ _) as [s3 r] eqn:P.
  intros H. right. exists s1, (tr :: chain), head, s3, r.
  destruct r; simpl in H; inversion H; subst; done.
Qed.

(** The calls of a [putRecords] run: load calls, and when the semaphore
    was taken, the calls of the commit loop between Acquire and Release. *)
Lemma putRecords_calls w fuel tid lid recs s s' res :
  putRecords w fuel tid lid recs s = Some (s', res) →
  ∃ lc : list Call, Forall (λ c, loadCall c = true) lc ∧
    (calls s' = calls s ++ lc ∨
     calls s' = calls s ++ lc ++ [] ++ [AcquireCall (semaKey tid)]
                  ++ [] ++ [ReleaseCall (semaKey tid)] ∨
     ∃ s2 s3 todo r cc,
       Blocks w tid lid todo s2 s3 r cc ∧
       bstore s' = bstore s3 ∧ heads s' = heads s3 ∧ bus s' = bus s3 ∧
       res = outcome r ∧
       calls s' = calls s ++ (lc ++ [AcquireCall (semaKey tid)]) ++ cc
                    ++ [ReleaseCall (semaKey tid)]).
Proof.
  intros H. apply putRecords_cases in H
    as [([_ _ _ (lc & Hlc & Hall)] & _)
       |(s1 & chain & head & s3 & r & _ & _ & [_ _ _ (lc & Hlc & Hall)] & P & -> & ->)].
  { exists lc. split; [done|]. by left. }
  exists lc. split; [done|].
  apply putRecordsLocked_cases in P as [(-> & e & He & ->)|(todo & _ & C)].
  - right; left. simpl. rewrite Hlc. by rewrite <- !app_assoc.
  - right; right. apply commitRecords_blocks in C as (cc & Hcc & B).
    exists (Acquire tid (interfere w s1)), s3, todo, r, cc.
    split; [done|]. repeat split; try done.
    simpl. rewrite Hcc. simpl. rewrite Hlc. by rewrite <- !app_assoc.
Qed.

Lemma Block_sethead_position w tid lid tr s s1 r blk pre t l c post :
  Block w tid lid tr s s1 r blk →
  blk = pre ++ SetHeadCall t l c true :: post →
  c = cidOf tr ∧
  (∀ conn, connectors w tid = Some conn →
     ∃ ok post', post = HandleCall tr ok :: post').
Proof.
  intros Hb E. destruct Hb; unfold handled in E;
    try destruct (connectors w tid) eqn:?; simpl in E; positions E;
    subst; try discriminate; simplify_eq;
    (split; [done|]); intros conn' Hconn'; try discriminate; by eauto.
Qed.

(** Every record the head is set to is handed to the connector, if there
    is one, in the very next call. *)
Lemma Blocks_sethead_then_handle w tid lid chain s s' r cc pre t l c post :
  Blocks w tid lid chain s s' r cc →
  cc = pre ++ SetHeadCall t l c true :: post →
  ∃ tr, c = cidOf tr ∧
    (∀ conn, connectors w tid = Some conn →
       ∃ ok post', post = HandleCall tr ok :: post').
Proof.
  intros Hb. revert pre. induction Hb as [| tr0 chain s s1 s' r blk cc B _ IH
                                          | tr0 chain s s1 e blk B]; intros pre E.
  - by destruct pre.
  - apply app_split_at in E as [(mid & E & ->)|(mid & -> & E)].
    + destruct (Block_sethead_position _ _ _ _ _ _ _ _ _ _ _ _ _ B E) as (-> & H).
      exists tr0. split; [done|]. intros conn Hc.
      destruct (H conn Hc) as (ok & post' & ->). by exists ok, (post' ++ cc).
    + by eapply IH.
  - destruct (Block_sethead_position _ _ _ _ _ _ _ _ _ _ _ _ _ B E) as (-> & H).
    by exists tr0.
Qed.

Lemma no_handle_in_load (lc : list Call) :
  Forall (λ c, loadCall c = true) lc →
  Forall (λ c, ¬ ∃ tr ok, c = HandleCall tr ok) lc.
Proof.
  intros H. eapply Forall_impl; [exact H|].
  intros c Hc (tr & ok & ->). discriminate.
Qed.

(** The order of [SetHead] and [HandleNetRecord] in the calls of a run. *)
Lemma putRecords_handle_order (w : World) (fuel : nat) (tid : ThreadID)
    (lid : LogID) (recs : list NetRecord) (s s' : State) (res : option error) :
  putRecords w fuel tid lid recs s = Some (s', res) →
  ∃ cs : list Call, calls s' = calls s ++ cs ∧
    (∀ pre tr ok post,
       cs = pre ++ HandleCall tr ok :: post →
       ∃ pre', pre = pre' ++ [SetHeadCall tid lid (cidOf tr) true]) ∧
    (∀ pre c post conn,
       cs = pre ++ SetHeadCall tid lid c true :: post →
       connectors w tid = Some conn →
       ∃ tr ok post', c = cidOf tr ∧ post = HandleCall tr ok :: post') ∧
    (∀ pre tr post,
       cs = pre ++ HandleCall tr false :: post →
       post = [ReleaseCall (semaKey tid)] ∧
       headOf s' tid lid = cidOf tr ∧
       ∃ conn e, connectors w tid = Some conn ∧
                 HandleNetRecord conn tr = Some e ∧
                 res = Some ("handling record failed: " +:+ e)).
Proof.
  intros H. apply putRecords_calls in H as (lc & Hlc & H).
  assert (Forall (λ x, ¬ ∃ c, x = SetHeadCall tid lid c true) lc) as HnoS.
  { eapply Forall_impl; [exact Hlc|]. intros x Hx (c & ->). discriminate. }
  assert (∀ A pre x post,
            Forall (λ x, ¬ ∃ c, x = SetHeadCall tid lid c true) A →
            A = pre ++ x :: post → ¬ ∃ c, x = SetHeadCall tid lid c true)
    as HabsentS.
  { intros A pre x post HA ->. rewrite Forall_app, Forall_cons in HA. tauto. }
  pose proof (no_handle_in_load lc Hlc) as Hno.
  set (Q := λ c : Call, ∃ tr ok, c = HandleCall tr ok) in *.
  assert (∀ A pre c post, Forall (λ x, ¬ Q x) A → A = pre ++ c :: post → ¬ Q c)
    as Habsent.
  { intros A pre c post HA ->. rewrite Forall_app, Forall_cons in HA. tauto. }
  assert (Forall (λ x, ¬ Q x) (lc ++ [AcquireCall (semaKey tid)])) as HA.
  { apply Forall_app. split; [done|]. constructor; [|done].
    intros (? & ? & ?); discriminate. }
  assert (Forall (λ x, ¬ Q x) [ReleaseCall (semaKey tid)]) as HB.
  { constructor; [|done]. intros (? & ? & ?); discriminate. }
  destruct H as [H|[H|(s2 & s3 & todo & r & cc & B & _ & Hh & _ & -> & H)]].
  - exists lc. split; [done|]. split; [|split].
    + intros pre tr ok post E. destruct (Habsent _ _ _ _ Hno E). by exists tr, ok.
    + intros pre c post conn E _. destruct (HabsentS _ _ _ _ HnoS E). by exists c.
    + intros pre tr post E. destruct (Habsent _ _ _ _ Hno E). by exists tr, false.
  - eexists. split; [exact H|].
    assert (Forall (λ x, ¬ Q x)
              (lc ++ [] ++ [AcquireCall (semaKey tid)] ++ [] ++
               [ReleaseCall (semaKey tid)])) as Hall.
    { simpl. apply Forall_app. split; [done|].
      repeat constructor; intros (? & ? & ?); discriminate. }
    split; [|split].
    + intros pre tr ok post E. destruct (Habsent _ _ _ _ Hall E). by exists tr, ok.
    + intros pre c post conn E _.
      assert (Forall (λ x, ¬ ∃ c, x = SetHeadCall tid lid c true)
                (lc ++ [] ++ [AcquireCall (semaKey tid)] ++ [] ++
                 [ReleaseCall (semaKey tid)])) as HallS.
      { simpl. apply Forall_app. split; [done|].
        repeat constructor; intros (? & ?); discriminate. }
      destruct (HabsentS _ _ _ _ HallS E). by exists c.
    + intros pre tr post E. destruct (Habsent _ _ _ _ Hall E). by exists tr, false.
  - eexists. split; [exact H|]. split; [|split].
    + intros pre tr ok post E.
      apply (locate_call Q) in E as (pre0 & post0 & E & -> & ->);
        [|done|done|by exists tr, ok].
      destruct (Blocks_handle_after_sethead _ _ _ _ _ _ _ _ _ _ _ _ B E)
        as [pre' ->].
      exists ((lc ++ [AcquireCall (semaKey tid)]) ++ pre'). by rewrite app_assoc.
    + intros pre c post conn E Hconn.
      apply (locate_call (λ x, ∃ c, x = SetHeadCall tid lid c true)) in E
        as (pre0 & post0 & E & -> & ->); [| | |by exists c].
      * destruct (Blocks_sethead_then_handle _ _ _ _ _ _ _ _ _ _ _ _ _ B E)
          as (tr & -> & Hnext).
        destruct (Hnext conn Hconn) as (ok & post' & ->).
        by exists tr, ok, (post' ++ [ReleaseCall (semaKey tid)]).
      * apply Forall_app. split; [done|]. constructor; [|done].
        intros (? & ?); discriminate.
      * constructor; [|done]. intros (? & ?); discriminate.
    + intros pre tr post E.
      apply (locate_call Q) in E as (pre0 & post0 & E & -> & ->);
        [|done|done|by exists tr, false].
      destruct (Blocks_handle_failed _ _ _ _ _ _ _ _ _ _ _ B E)
        as (-> & Hhead & conn & e & Hc & He & ->).
      split; [done|]. split.
      * unfold headOf in *. by rewrite Hh.
      * by exists conn, e.
Qed.

(** ** Local records *)

Lemma cborGetRecord_cid w c sk s s1 r :
  cborGetRecord w c sk s = (s1, Ok r) → RecordCid r = c.
Proof.
  unfold cborGetRecord, bind, dagGet, ret, fail.
  destruct (dag w c) as [coded|]; [destruct (decrypt w sk coded) as [[| |]|]|];
    intros H; by inversion H.
Qed.

Lemma walkLocal_spec w room sk offset head cursor recs s out err :
  walkLocal w room sk offset cursor recs s = (out, err) →
  linked recs → cursorOf recs head = cursor →
  (∀ r, last recs = Some r → RecordCid r = head) →
  Forall (λ r, Defined (RecordCid r) = true ∧ RecordCid r ≠ offset) recs →
  linked out ∧
  (∀ r, last out = Some r → RecordCid r = head) ∧
  Forall (λ r, Defined (RecordCid r) = true ∧ RecordCid r ≠ offset) out ∧
  (List.length out ≤ List.length recs + room)%nat ∧
  (err = None → (List.length out < List.length recs + room)%nat →
   Defined (cursorOf out head) = false ∨ cursorOf out head = offset).
Proof.
  revert cursor recs. induction room as [|room IH]; intros cursor recs; simpl.
  - intros H Hl Hc Hlast Hall. inversion H; subst.
    repeat split; try done; lia.
  - destruct (negb (Defined cursor) || Equals cursor offset) eqn:Estop.
    + intros H Hl Hc Hlast Hall. inversion H; subst.
      repeat split; try done; [lia|]. intros _ _.
      apply orb_true_iff in Estop as [E|E].
      * left. by apply negb_true_iff.
      * right. unfold Equals in E. by apply bool_decide_eq_true in E.
    + apply orb_false_iff in Estop as [Edef Eoff].
      apply negb_false_iff in Edef.
      unfold Equals in Eoff. apply bool_decide_eq_false in Eoff.
      destruct (cborGetRecord w cursor sk s) as [s1 [r|e]] eqn:G.
      * pose proof (cborGetRecord_cid _ _ _ _ _ _ G) as Hcid.
        pose proof (cborGetRecord_state _ _ _ _ _ _ G) as ->.
        intros H Hl Hc Hlast Hall.
        apply IH in H as (O1 & O2 & O3 & O4 & O5).
        -- repeat split; try done; [simpl in O4; lia|].
           intros He Hlen. apply O5; [done|]. simpl. lia.
        -- simpl. destruct recs as [|r0 recs]; [done|].
           split; [|done]. simpl in Hc. congruence.
        -- done.
        -- intros x. destruct recs as [|r0 recs]; simpl.
           ++ intros Hx; inversion Hx; subst. simpl in Hc. congruence.
           ++ intros Hx. by apply Hlast.
        -- constructor; [|done]. rewrite Hcid. done.
      * intros H Hl Hc Hlast Hall. inversion H; subst.
        repeat split; try done; lia.
Qed.

(** C8 (as the code has it): [getLocalRecords] returns at most [limit]
    records, in chronological order, the newest being the log head; every one
    of them is defined and is not the offset; when it ends without error and
    below the limit, it stopped at the offset or at an undefined CID.  When
    the offset is defined and absent from the blockstore, no record is
    returned. *)
Theorem C8_local_records_after_offset (w : World) (tid : ThreadID) (lid : LogID)
    (offset : Cid) (limit : Z) (s : State) :
  let recs := (getLocalRecords w tid lid offset limit s).1 in
  let err := (getLocalRecords w tid lid offset limit s).2 in
  (Z.of_nat (List.length recs) ≤ Z.max 0 limit)%Z ∧
  linked recs ∧
  (∀ r, last recs = Some r → RecordCid r = headOf s tid lid) ∧
  Forall (λ r, Defined (RecordCid r) = true ∧ RecordCid r ≠ offset) recs ∧
  (err = None → (Z.of_nat (List.length recs) < limit)%Z →
   Defined offset = false ∨ offset ∈ bstore s →
   Defined (cursorOf recs (headOf s tid lid)) = false ∨
   cursorOf recs (headOf s tid lid) = offset) ∧
  (Defined offset = true → hasErr w offset = None → offset ∉ bstore s →
   recs = [] ∧ err = None).
Proof.
  intros recs err. subst recs err. unfold getLocalRecords.
  assert (∀ e, let out : list NetRecord * option error := ([], Some e) in
    (Z.of_nat (List.length out.1) ≤ Z.max 0 limit)%Z ∧ linked out.1 ∧
    (∀ r, last out.1 = Some r → RecordCid r = headOf s tid lid) ∧
    Forall (λ r, Defined (RecordCid r) = true ∧ RecordCid r ≠ offset) out.1 ∧
    (out.2 = None → (Z.of_nat (List.length out.1) < limit)%Z →
     Defined offset = false ∨ offset ∈ bstore s →
     Defined (cursorOf out.1 (headOf s tid lid)) = false ∨
     cursorOf out.1 (headOf s tid lid) = offset)) as Herr.
  { intros e. simpl. repeat split; try done. lia. }
  destruct (Defined offset) eqn:Edef.
  - unfold isKnown. destruct (hasErr w offset) as [e|] eqn:Ehas.
    { destruct (Herr e) as (?&?&?&?&?). by repeat split. }
    destruct (bool_decide (offset ∈ bstore s)) eqn:Ein.
    + apply bool_decide_eq_true in Ein.
      unfold GetLogHead. destruct (getLogErr w tid lid) as [e|].
      { destruct (Herr e) as (?&?&?&?&?). by repeat split. }
      fold (headOf s tid lid).
      assert (match heads s !! (tid, lid) with
              | Some (h :: _) => (s, Ok h)
              | _ => (s, Ok Undef)
              end = (s, Ok (headOf s tid lid))) as ->.
      { unfold headOf. by destruct (heads s !! (tid, lid)) as [[|? ?]|]. }
      destruct (serviceKeys w tid) as [[sk|]|e].
      * destruct (walkLocal w (Z.to_nat limit) sk offset (headOf s tid lid) [] s)
          as [out err] eqn:W.
        eapply (walkLocal_spec _ _ _ _ (headOf s tid lid)) in W
          as (O1 & O2 & O3 & O4 & O5); try done.
        simpl in *. repeat split; try done; [lia|].
        intros He Hlen _. apply O5; [done|lia].
      * destruct (Herr "a service-key is required to get records") as (?&?&?&?&?).
        by repeat split.
      * destruct (Herr e) as (?&?&?&?&?). by repeat split.
    + apply bool_decide_eq_false in Ein. simpl.
      repeat split; try done; [lia|]. intros _ _ [?|?]; done.
  - unfold GetLogHead. destruct (getLogErr w tid lid) as [e|].
    { destruct (Herr e) as (?&?&?&?&?). by repeat split. }
    assert (match heads s !! (tid, lid) with
            | Some (h :: _) => (s, Ok h)
            | _ => (s, Ok Undef)
            end = (s, Ok (headOf s tid lid))) as ->.
    { unfold headOf. by destruct (heads s !! (tid, lid)) as [[|? ?]|]. }
    destruct (serviceKeys w tid) as [[sk|]|e].
    * destruct (walkLocal w (Z.to_nat limit) sk offset (headOf s tid lid) [] s)
        as [out err] eqn:W.
      eapply (walkLocal_spec _ _ _ _ (headOf s tid lid)) in W
        as (O1 & O2 & O3 & O4 & O5); try done.
      simpl in *. repeat split; try done; [lia|].
      intros He Hlen _. apply O5; [done|lia].
    * destruct (Herr "a service-key is required to get records") as (?&?&?&?&?).
      by repeat split.
    * destruct (Herr e) as (?&?&?&?&?). by repeat split.
Qed.

Lemma local_records_after_known_offset :
  getLocalRecords quietWorld "t" "l" (CidOf 1) 10 settledState =
    ([sampleRecord 2; sampleRecord 3], None).
Proof. vm_compute. reflexivity. Qed.

Lemma local_records_up_to_limit :
  getLocalRecords quietWorld "t" "l" Undef 2 settledState =
    ([sampleRecord 2; sampleRecord 3], None).
Proof. vm_compute. reflexivity. Qed.

(** C8, as the spec words it, fails: with the head on record 3 and an
    offset that is defined but absent from the blockstore, nothing is
    returned, while the walk from the head yields records 1, 2, 3. *)
Lemma C8_unknown_offset_returns_nothing :
  Defined (CidOf 99) = true ∧
  (CidOf 99 ∉ bstore settledState) ∧
  headOf settledState "t" "l" = CidOf 3 ∧
  getLocalRecords quietWorld "t" "l" (CidOf 99) 10 settledState = ([], None) ∧
  getLocalRecords quietWorld "t" "l" Undef 10 settledState = (threeRecords, None).
Proof.
  split; [reflexivity|]. split.
  - apply (bool_decide_eq_false_1 (CidOf 99 ∈ bstore settledState)).
    vm_compute. reflexivity.
  - repeat split; vm_compute; reflexivity.
Qed.

(** ** Threads without read-key *)

Lemma Extends_refl P s : Extends P s s.
Proof. exists []. by rewrite app_nil_r. Qed.

Lemma Extends_trans P s1 s2 s3 :
  Extends P s1 s2 → Extends P s2 s3 → Extends P s1 s3.
Proof.
  intros (cs & H1 & F1) (ds & H2 & F2). exists (cs ++ ds). split.
  - rewrite H2, H1. by rewrite app_assoc.
  - by apply Forall_app.
Qed.

Lemma Extends_one (P : Call → Prop) s s' c :
  calls s' = calls s ++ [c] → P c → Extends P s s'.
Proof. intros H Hc. exists [c]. split; [done|]. by constructor. Qed.

Lemma AddMany_extends (P : Call → Prop) w cs s s' r :
  (∀ ok, P (AddManyCall cs ok)) → AddMany w cs s = (s', r) → Extends P s s'.
Proof.
  intros HP. unfold AddMany. destruct (addErr w cs); intros H; inversion H; subst;
    by eapply Extends_one.
Qed.

Lemma loadRecord_plain w tid lid r s s1 res :
  loadRecord w tid lid None r s = (s1, res) →
  Extends (λ c, bodyCall c = false) s s1.
Proof.
  unfold loadRecord. intros H.
  apply bind_inv in H as [(blk & s0 & H1 & H2)|(e & H1 & _)];
    apply dagGet_state in H1; subst; [|apply Extends_refl].
  destruct blk as [| headerID bodyID |];
    try (unfold fail in H2; inversion H2; subst; apply Extends_refl).
  apply bind_inv in H2 as [(hd & s0 & H1 & H2)|(e & H1 & _)];
    apply dagGet_state in H1; subst; [|apply Extends_refl].
  apply bind_inv in H2 as [(bd & s0 & H1 & H2)|(e & H1 & _)];
    apply dagGet_state in H1; subst; [|apply Extends_refl].
  apply bind_inv in H2 as [(u & s0 & H1 & H2)|(e & H1 & _)];
    unfold ret in H1; inversion H1; subst.
  apply bind_inv in H2 as [(u2 & s2 & H2 & H3)|(e & H2 & _)].
  - unfold ret in H3. inversion H3; subst. by eapply AddMany_extends.
  - by eapply AddMany_extends.
Qed.

Lemma loadChain_plain w tid lid rs acc s s1 res :
  loadChain w tid lid None rs acc s = (s1, res) →
  Extends (λ c, bodyCall c = false) s s1.
Proof.
  revert acc s. induction rs as [|r rs IH]; intros acc s; simpl.
  - unfold ret. intros H; inversion H. apply Extends_refl.
  - intros H. apply bind_inv in H as [(tr & s0 & H1 & H2)|(e & H1 & _)].
    + eapply Extends_trans; [by eapply loadRecord_plain|by eapply IH].
    + by eapply loadRecord_plain.
Qed.

(** Without a read-key [validate] is false. *)
Lemma validation_without_read_key w tid s :
  readKeys w tid = Ok None → validation w tid s = (s, Ok None).
Proof.
  intros H. unfold validation, bind, lift, ret.
  destruct (connectors w tid); [|done]. by rewrite H.
Qed.

Lemma loadRecords_plain w fuel tid lid recs s s1 out :
  readKeys w tid = Ok None →
  loadRecords w fuel tid lid recs s = Some (s1, out) →
  Extends (λ c, bodyCall c = false) s s1.
Proof.
  intros Hkey. unfold loadRecords.
  destruct (gatherChain w fuel tid lid recs s) as [[s0 [[chain head] err]]|] eqn:G;
    [|done].
  apply gatherChain_state in G; subst s0.
  destruct err as [e|].
  { destruct chain; intros H; inversion H; apply Extends_refl. }
  destruct chain as [|r0 chain].
  { intros H; inversion H. apply Extends_refl. }
  unfold bind at 1. rewrite (validation_without_read_key _ _ _ Hkey).
  destruct (loadChain _ _ _ _ _ _ s) as [s2 res] eqn:B. intros H.
  assert (s1 = s2) as -> by (destruct res; by inversion H).
  by eapply loadChain_plain.
Qed.

Lemma Block_plain w tid lid tr s s1 r blk :
  Block w tid lid tr s s1 r blk → Forall (λ c, bodyCall c = false) blk.
Proof.
  intros B. destruct B; unfold handled; destruct (connectors w tid);
    by repeat constructor.
Qed.

Lemma Blocks_plain w tid lid chain s s' r cc :
  Blocks w tid lid chain s s' r cc → Forall (λ c, bodyCall c = false) cc.
Proof.
  induction 1 as [| ? ? ? ? ? ? ? ? B _ IH | ? ? ? ? ? ? B]; [done| |].
  - apply Forall_app. split; [by eapply Block_plain|done].
  - by eapply Block_plain.
Qed.

(** On a thread without read-key no body is decrypted and the connector is
    never asked to validate one, however the run ends. *)
Lemma putRecords_plain w fuel tid lid recs s s' res :
  readKeys w tid = Ok None →
  putRecords w fuel tid lid recs s = Some (s', res) →
  Extends (λ c, bodyCall c = false) s s'.
Proof.
  intros Hkey H. apply putRecords_cases in H
    as [(_ & chain & head & err & L & _)
       |(s1 & chain & head & s3 & r & L & _ & _ & P & -> & ->)].
  { by eapply loadRecords_plain. }
  eapply Extends_trans; [by eapply loadRecords_plain|].
  apply putRecordsLocked_cases in P as [(-> & _)|(todo & _ & C)].
  - exists [AcquireCall (semaKey tid); ReleaseCall (semaKey tid)].
    split; [simpl; by rewrite <- app_assoc|]. by repeat constructor.
  - apply commitRecords_blocks in C as (cc & Hcc & B).
    exists ([AcquireCall (semaKey tid)] ++ cc ++ [ReleaseCall (semaKey tid)]).
    split.
    + simpl. rewrite Hcc. simpl. by rewrite <- !app_assoc.
    + apply Forall_app. split; [by repeat constructor|].
      apply Forall_app. split; [by eapply Blocks_plain|by repeat constructor].
Qed.

Lemma walkInputs_grows head rs acc chain complete :
  walkInputs head rs acc = (chain, complete) → ∃ ext, chain = acc ++ ext.
Proof.
  revert acc. induction rs as [|next rest IH]; intros acc; simpl.
  - intros H; inversion H; subst. exists []. by rewrite app_nil_r.
  - destruct (negb (Defined (RecordCid next)) || Equals (RecordCid next) head).
    + intros H; inversion H; subst. exists []. by rewrite app_nil_r.
    + intros H. apply IH in H as [ext ->]. exists (next :: ext).
      by rewrite <- app_assoc.
Qed.

Lemma bridge_grows w fuel tid head c chain s s' out :
  bridge w fuel tid head c chain s = Some (s', Ok out) → ∃ ext, out = chain ++ ext.
Proof.
  revert c chain s. induction fuel as [|fuel IH]; intros c chain s; simpl.
  - destruct (negb (Defined c)).
    { intros H; inversion H; subst. exists []. by rewrite app_nil_r. }
    destruct (Equals c head); intros H; inversion H; subst.
    exists []. by rewrite app_nil_r.
  - destruct (negb (Defined c)).
    { intros H; inversion H; subst. exists []. by rewrite app_nil_r. }
    destruct (Equals c head).
    { intros H; inversion H; subst. exists []. by rewrite app_nil_r. }
    destruct (getRecord w tid c s) as [s1 [r|e]]; [|done].
    intros H. apply IH in H as [ext ->]. exists (r :: ext).
    by rewrite <- app_assoc.
Qed.

(** A non-empty chain starts with the last record of the input and was
    measured against the head of the log. *)
Lemma gatherChain_shape w fuel tid lid recs s s' chain head :
  gatherChain w fuel tid lid recs s = Some (s', (chain, head, None)) →
  chain ≠ [] →
  headsErr w tid lid = None ∧ head = headOf s tid lid ∧
  ∃ final older, last recs = Some final ∧ chain = final :: older ∧
    hasErr w (RecordCid final) = None ∧
    (RecordCid final ∉ bstore s) ∧ Defined (RecordCid final) = true.
Proof.
  unfold gatherChain. destruct (rev recs) as [|final before] eqn:Erev; [done|].
  assert (last recs = Some final) as Hlast.
  { rewrite <- (rev_involutive recs), Erev. simpl. by rewrite last_snoc. }
  unfold isKnown. destruct (hasErr w (RecordCid final)) eqn:Ehas; [done|].
  destruct (bool_decide (RecordCid final ∈ bstore s)) eqn:Ein; simpl.
  { intros H; by inversion H. }
  apply bool_decide_eq_false in Ein.
  destruct (Defined (RecordCid final)) eqn:Edef; simpl.
  2:{ intros H; by inversion H. }
  unfold currentHead. destruct (headsErr w tid lid); [done|].
  assert (match heads s !! (tid, lid) with
          | Some (h :: _) => (s, Ok h)
          | _ => (s, Ok Undef)
          end = (s, Ok (headOf s tid lid))) as ->.
  { unfold headOf. by destruct (heads s !! (tid, lid)) as [[|? ?]|]. }
  simpl.
  destruct (Equals (RecordCid final) (headOf s tid lid)).
  { intros H; by inversion H. }
  destruct (walkInputs (headOf s tid lid) before [final]) as [c0 complete] eqn:W.
  apply walkInputs_grows in W as [ext ->].
  destruct complete.
  - intros H; inversion H; subst. intros _. repeat split; try done.
    by exists final, ext.
  - destruct (bridge _ _ _ _ _ _ _) as [[s1 [out|e]]|] eqn:B; [|done|done].
    apply bridge_grows in B as [ext2 ->].
    intros H; inversion H; subst. intros _. repeat split; try done.
    by exists final, (ext ++ ext2).
Qed.

Lemma loadChain_succeeds w tid lid rs acc s :
  Forall (λ r, loads w r = true) rs →
  ∃ s1, loadChain w tid lid None rs acc s =
          (s1, Ok (acc ++ map (λ r, NewRecord r tid lid) rs)).
Proof.
  intros Hall. revert acc s. induction Hall as [|r rs Hr _ IH]; intros acc s; simpl.
  - exists s. by rewrite app_nil_r.
  - unfold loads in Hr. unfold bind at 1, loadRecord, bind, dagGet, ret, AddMany.
    destruct (dag w (BlockID r)) as [[| headerID bodyID |]|]; try done.
    destruct (dag w headerID); [|done]. destruct (dag w bodyID); [|done].
    destruct (addErr w [BlockID r; headerID; bodyID]); [done|].
    simpl.
    match goal with
    | |- ∃ s0, loadChain _ _ _ _ _ ?a ?st = _ => destruct (IH a st) as [s1 E]
    end.
    exists s1. rewrite E. by rewrite <- app_assoc.
Qed.

Lemma commitRecords_succeeds w tid lid rs s :
  Forall (λ r, commits w tid lid r = true) rs →
  ∃ s', commitRecords w tid lid (map (λ r, NewRecord r tid lid) rs) s = (s', Ok tt).
Proof.
  intros Hall. revert s. induction Hall as [|r rs Hr _ IH]; intros s; simpl.
  - by exists s.
  - unfold bind at 1.
    destruct (commitRecord w tid lid (NewRecord r tid lid) s) as [s1 r1] eqn:C.
    apply commitRecord_block in C as (blk & _ & B).
    unfold commits in Hr. unfold cidOf in B. simpl in B.
    destruct B; unfold cidOf in *; simpl in *; [..|apply IH];
      repeat match goal with
             | H : _ = Some _ |- _ => rewrite H in Hr; simpl in Hr
             | H : _ = None |- _ => rewrite H in Hr; simpl in Hr
             end;
      try done;
      match type of Hr with
      | match ?x with _ => _ end = _ => by destruct x
      end.
Qed.

Lemma Block_done_state w tid lid tr s s1 blk :
  Block w tid lid tr s s1 (Ok tt) blk →
  bstore s1 = {[cidOf tr]} ∪ bstore s ∧
  heads s1 = <[(tid, lid) := [cidOf tr]]> (heads s) ∧
  bus s1 = bus s ++ [tr].
Proof. by inversion 1. Qed.

Lemma Blocks_nil_state w tid lid s s' r cc :
  Blocks w tid lid [] s s' r cc →
  bstore s' = bstore s ∧ heads s' = heads s ∧ bus s' = bus s ∧ cc = [].
Proof. by inversion 1. Qed.

Lemma Blocks_done_state w tid lid chain s s' cc :
  Blocks w tid lid chain s s' (Ok tt) cc →
  bstore s' = list_to_set (map cidOf chain) ∪ bstore s ∧
  bus s' = bus s ++ chain ∧
  (∀ newest, last chain = Some newest → headOf s' tid lid = cidOf newest).
Proof.
  intros B. remember (Ok tt) as r eqn:Er.
  induction B as [s s' Hb Hh Hu | tr chain s s1 s' r blk cc B Bs IH
                 | tr chain s s1 e blk B]; [| |done].
  - rewrite app_nil_r. simpl. split; [|done].
    rewrite Hb. apply set_eq. intros x. rewrite elem_of_union, elem_of_empty. tauto.
  - destruct (IH Er) as (I1 & I2 & I3).
    apply Block_done_state in B as (Hb & Hh & Hu).
    split; [|split].
    + rewrite I1, Hb. simpl. apply set_eq. intros x.
      rewrite !elem_of_union. tauto.
    + rewrite I2, Hu. by rewrite <- app_assoc.
    + intros newest Hlast. destruct chain as [|tr2 chain].
      * simpl in Hlast. inversion Hlast; subst.
        apply Blocks_nil_state in Bs as (_ & Hh' & _).
        unfold headOf. rewrite Hh'. fold (headOf s1 tid lid).
        by eapply headOf_insert.
      * apply I3. by rewrite last_cons_cons in Hlast.
Qed.

Lemma currentHead_reads w tid lid s :
  headsErr w tid lid = None → currentHead w tid lid s = (s, Ok (headOf s tid lid)).
Proof.
  intros H. unfold currentHead, headOf. rewrite H.
  by destruct (heads s !! (tid, lid)) as [[|? ?]|].
Qed.

Lemma putRecordsLocked_same_head w tid lid chain head s2 :
  headsErr w tid lid = None → headOf s2 tid lid = head →
  putRecordsLocked w tid lid chain head s2 = commitRecords w tid lid chain s2.
Proof.
  intros Hh Heq. unfold putRecordsLocked, bind, wrap.
  rewrite (currentHead_reads _ _ _ _ Hh), Heq.
  unfold Equals. by rewrite bool_decide_eq_true_2.
Qed.

(** What a run does when every collaborator answers and no other worker
    moves the head: the whole chain is committed. *)
Lemma putRecords_commits_chain w fuel tid lid recs s chain head v :
  gatherChain w fuel tid lid recs s = Some (s, (chain, head, None)) →
  chain ≠ [] →
  validation w tid s = (s, Ok v) →
  (∀ acc s0, ∃ s1,
     loadChain w tid lid v (rev chain) acc s0 =
       (s1, Ok (acc ++ map (λ r, NewRecord r tid lid) (rev chain)))) →
  Forall (λ r, commits w tid lid r = true) chain →
  (∀ x, headOf (concurrent w x) tid lid = headOf x tid lid) →
  ∃ s1 s3 cc,
    loadRecords w fuel tid lid recs s =
      Some (s1, (map (λ r, NewRecord r tid lid) (rev chain), head, None)) ∧
    Blocks w tid lid (map (λ r, NewRecord r tid lid) (rev chain))
           (Acquire tid (interfere w s1)) s3 (Ok tt) cc ∧
    calls s3 = calls s1 ++ [AcquireCall (semaKey tid)] ++ cc ∧
    putRecords w fuel tid lid recs s = Some (Release tid s3, None).
Proof.
  intros Hg Hne Hv Hload Hall Hconc.
  destruct (gatherChain_shape _ _ _ _ _ _ _ _ _ Hg Hne)
    as (Hheads & -> & final & older & Hlast & -> & _).
  destruct (Hload [] s) as [s1 E]. simpl in E.
  assert (loadRecords w fuel tid lid recs s =
          Some (s1, (map (λ r, NewRecord r tid lid) (rev (final :: older)),
                     headOf s tid lid, None))) as L.
  { unfold loadRecords. rewrite Hg. unfold bind at 1. rewrite Hv.
    simpl in *. by rewrite E. }
  pose proof (loadRecords_frame _ _ _ _ _ _ _ _ L) as [Fh _ _ _].
  set (chain' := map (λ r, NewRecord r tid lid) (rev (final :: older))) in *.
  assert (chain' ≠ []) as Hne'.
  { unfold chain'. simpl. rewrite map_app. simpl. by destruct (map _ (rev older)). }
  destruct (commitRecords_succeeds w tid lid (rev (final :: older))
              (Acquire tid (interfere w s1))) as [s3 C].
  { apply Forall_forall. intros r Hr. rewrite Forall_forall in Hall.
    apply Hall. apply list_elem_of_In in Hr. rewrite <- in_rev in Hr.
    by apply list_elem_of_In. }
  fold chain' in C.
  pose proof C as C'. apply commitRecords_blocks in C' as (cc & Hcc & B).
  exists s1, s3, cc. split; [done|]. split; [done|]. split.
  { rewrite Hcc. simpl. by rewrite <- app_assoc. }
  unfold putRecords. rewrite L.
  rewrite putRecordsLocked_same_head, C; [by destruct chain'|done|].
  unfold headOf in *. simpl. specialize (Hconc s1). by rewrite Hconc, Fh.
Qed.

(** C9: on a thread without read-key [validate] is false, no body is
    decrypted and [ValidateNetRecordBody] is never called; when the
    collaborators answer, the run returns nil, every envelope of the chain is
    in the blockstore and the head is the last record of the input. *)
Theorem C9_service_only_thread (w : World) (fuel : nat) (tid : ThreadID)
    (lid : LogID) (recs : list NetRecord) (s : State)
    (chain : list NetRecord) (head : Cid) :
  readKeys w tid = Ok None →
  gatherChain w fuel tid lid recs s = Some (s, (chain, head, None)) →
  chain ≠ [] →
  Forall (λ r, loads w r = true) chain →
  Forall (λ r, commits w tid lid r = true) chain →
  (∀ x, headOf (concurrent w x) tid lid = headOf x tid lid) →
  ∃ s' final,
    putRecords w fuel tid lid recs s = Some (s', None) ∧
    (∃ v, validation w tid s = (s, Ok v) ∧ validate v = false) ∧
    Extends (λ c, bodyCall c = false) s s' ∧
    last recs = Some final ∧
    headOf s' tid lid = RecordCid final ∧
    Forall (λ r, RecordCid r ∈ bstore s') chain.
Proof.
  intros Hkey Hg Hne Hloads Hcommits Hconc.
  pose proof (validation_without_read_key w tid s Hkey) as Hv.
  destruct (putRecords_commits_chain w fuel tid lid recs s chain head None
              Hg Hne Hv) as (s1 & s3 & cc & L & B & Hcc & P); [|done|done|].
  { intros acc s0. apply loadChain_succeeds. apply Forall_forall.
    intros r Hr. rewrite Forall_forall in Hloads. apply Hloads.
    apply list_elem_of_In in Hr. rewrite <- in_rev in Hr.
    by apply list_elem_of_In. }
  destruct (gatherChain_shape _ _ _ _ _ _ _ _ _ Hg Hne)
    as (_ & _ & final & older & Hlast & -> & _).
  apply Blocks_done_state in B as (Hb & _ & Hhead).
  exists (Release tid s3), final. split; [done|]. split; [by exists None|].
  split; [by eapply putRecords_plain|]. split; [done|]. split.
  - replace (headOf (Release tid s3) tid lid) with (headOf s3 tid lid) by done.
    rewrite (Hhead (NewRecord final tid lid)); [done|].
    simpl. rewrite map_app. simpl. by rewrite last_snoc.
  - apply Forall_forall. intros r Hr. simpl. rewrite Hb.
    apply elem_of_union_l, elem_of_list_to_set.
    rewrite list_elem_of_fmap. exists (NewRecord r tid lid). split; [done|].
    rewrite list_elem_of_fmap. exists r. split; [done|].
    apply list_elem_of_In. rewrite <- in_rev. by apply list_elem_of_In.
Qed.

Lemma C9_service_only_thread_witness :
  readKeys relayWorld "t" = Ok None ∧
  gatherChain relayWorld 5 "t" "l" [sampleRecord 3] emptyState =
    Some (emptyState,
          ([sampleRecord 3; sampleRecord 2; sampleRecord 1], Undef, None)) ∧
  ∃ s' final,
    putRecords relayWorld 5 "t" "l" [sampleRecord 3] emptyState = Some (s', None) ∧
    (∃ v, validation relayWorld "t" emptyState = (emptyState, Ok v) ∧
          validate v = false) ∧
    Extends (λ c, bodyCall c = false) emptyState s' ∧
    last [sampleRecord 3] = Some final ∧
    headOf s' "t" "l" = RecordCid final ∧
    Forall (λ r, RecordCid r ∈ bstore s')
           [sampleRecord 3; sampleRecord 2; sampleRecord 1].
Proof.
  split; [reflexivity|]. split; [reflexivity|].
  apply (C9_service_only_thread relayWorld 5 "t" "l" [sampleRecord 3] emptyState
           [sampleRecord 3; sampleRecord 2; sampleRecord 1] Undef).
  - reflexivity.
  - reflexivity.
  - discriminate.
  - repeat constructor.
  - repeat constructor.
  - reflexivity.
Defined.

(** ** Repeated runs *)

Lemma loadRecord_result w tid lid v r s s1 tr :
  loadRecord w tid lid v r s = (s1, Ok tr) → tr = NewRecord r tid lid.
Proof.
  unfold loadRecord. intros H.
  apply bind_inv in H as [(blk & s0 & _ & H)|(e & _ & ?)]; [|done].
  destruct blk as [| headerID bodyID |]; try done.
  apply bind_inv in H as [(hd & s2 & _ & H)|(e & _ & ?)]; [|done].
  apply bind_inv in H as [(bd & s3 & _ & H)|(e & _ & ?)]; [|done].
  apply bind_inv in H as [(u & s4 & _ & H)|(e & _ & ?)]; [|done].
  apply bind_inv in H as [(u2 & s5 & _ & H)|(e & _ & ?)]; [|done].
  unfold ret in H. by inversion H.
Qed.

Lemma loadChain_result w tid lid v rs acc s s1 out :
  loadChain w tid lid v rs acc s = (s1, Ok out) →
  out = acc ++ map (λ r, NewRecord r tid lid) rs.
Proof.
  revert acc s. induction rs as [|r rs IH]; intros acc s; simpl.
  - unfold ret. intros H; inversion H. by rewrite app_nil_r.
  - intros H. apply bind_inv in H as [(tr & s0 & H1 & H2)|(e & _ & ?)]; [|done].
    apply loadRecord_result in H1 as ->. apply IH in H2 as ->.
    by rewrite <- app_assoc.
Qed.

(** A successful [loadRecords] returns the gathered chain, oldest first. *)
Lemma loadRecords_result w fuel tid lid recs s s1 chain head :
  loadRecords w fuel tid lid recs s = Some (s1, (chain, head, None)) →
  ∃ gathered,
    gatherChain w fuel tid lid recs s = Some (s, (gathered, head, None)) ∧
    chain = map (λ r, NewRecord r tid lid) (rev gathered) ∧
    (gathered = [] → s1 = s).
Proof.
  unfold loadRecords.
  destruct (gatherChain w fuel tid lid recs s) as [[s0 [[gathered head0] err]]|] eqn:G;
    [|done].
  pose proof (gatherChain_state _ _ _ _ _ _ _ _ G) as ->.
  destruct err as [e|]. { by destruct gathered. }
  destruct gathered as [|r0 gathered].
  { intros H; inversion H; subst. by exists []. }
  destruct (bind _ _ s) as [s2 [out|e]] eqn:B; [|done].
  intros H; inversion H; subst. exists (r0 :: gathered).
  split; [done|]. split; [|done].
  apply bind_inv in B as [(v & s0 & _ & B)|(e & _ & ?)]; [|done].
  by apply loadChain_result in B.
Qed.

(** C6 (as the code has it): a run that returned nil while no other worker
    moved the head of the log or wrote to the bus, repeated on the state it
    left, returns nil again and hands back the very state it was given: no
    head, blockstore or bus write, no call at all.  The first run published
    the records of its chain once each, oldest first. *)
Theorem C6_successful_run_is_idempotent (w : World) (fuel : nat)
    (tid : ThreadID) (lid : LogID) (recs : list NetRecord) (s s1 : State) :
  (∀ x, headOf (concurrent w x) tid lid = headOf x tid lid) →
  (∀ x, bus (concurrent w x) = bus x) →
  putRecords w fuel tid lid recs s = Some (s1, None) →
  putRecords w fuel tid lid recs s1 = Some (s1, None) ∧
  ∃ chain head,
    gatherChain w fuel tid lid recs s = Some (s, (chain, head, None)) ∧
    bus s1 = bus s ++ map (λ r, NewRecord r tid lid) (rev chain).
Proof.
  intros Hhead Hbus H. pose proof H as Hcases.
  apply putRecords_cases in Hcases
    as [(F & chain & head & err & L & Hnil)
       |(s0 & chain & head & s3 & r & L & Hne & F & P & -> & Hres)].
  - destruct err as [e|].
    { unfold putRecords in H. rewrite L in H. by destruct chain. }
    destruct (Hnil eq_refl) as [-> _].
    apply loadRecords_result in L as (gathered & G & Hmap & Hs).
    assert (gathered = []) as ->.
    { destruct gathered as [|r0 g]; [done|]. simpl in Hmap.
      rewrite map_app in Hmap. simpl in Hmap. by destruct (map _ (rev g)). }
    rewrite (Hs eq_refl) in *. split; [done|].
    exists [], head. split; [done|]. by rewrite app_nil_r.
  - destruct r as [[]|e]; [|done].
    destruct (loadRecords_result _ _ _ _ _ _ _ _ _ L) as (gathered & G & Hmap & _).
    assert (gathered ≠ []) as Hg by (intros ->; by subst chain).
    destruct (gatherChain_shape _ _ _ _ _ _ _ _ _ G Hg)
      as (Hheads & -> & final & older & Hlast & -> & Hhas & _).
    destruct F as [Fh Fb _ _].
    rewrite putRecordsLocked_same_head in P; [|done|].
    2:{ specialize (Hhead s0). unfold headOf in *. simpl. by rewrite Hhead, Fh. }
    apply commitRecords_blocks in P as (cc & _ & B).
    apply Blocks_done_state in B as (Hb & Hu & _).
    split.
    + apply (known_last_returns_at_once w fuel tid lid recs final); [done|done|].
      left. simpl. rewrite Hb, Hmap. apply elem_of_union_l, elem_of_list_to_set.
      rewrite list_elem_of_fmap. exists (NewRecord final tid lid).
      split; [done|]. rewrite list_elem_of_fmap. exists final. split; [done|].
      apply list_elem_of_In. rewrite <- in_rev. by left.
    + exists (final :: older), (headOf s tid lid). split; [done|].
      simpl. rewrite Hu. simpl. rewrite Hbus, Fb. by rewrite Hmap.
Qed.

Lemma C6_successful_run_is_idempotent_witness :
  (∀ x, headOf (concurrent quietWorld x) "t" "l" = headOf x "t" "l") ∧
  (∀ x, bus (concurrent quietWorld x) = bus x) ∧
  putRecords quietWorld 5 "t" "l" threeRecords emptyState =
    Some (settledState, None) ∧
  putRecords quietWorld 5 "t" "l" threeRecords settledState =
    Some (settledState, None) ∧
  ∃ chain head,
    gatherChain quietWorld 5 "t" "l" threeRecords emptyState =
      Some (emptyState, (chain, head, None)) ∧
    bus settledState =
      bus emptyState ++ map (λ r, NewRecord r "t" "l") (rev chain).
Proof.
  assert (putRecords quietWorld 5 "t" "l" threeRecords emptyState =
            Some (settledState, None)) as H by (vm_compute; reflexivity).
  split; [reflexivity|]. split; [reflexivity|]. split; [exact H|].
  exact (C6_successful_run_is_idempotent quietWorld 5 "t" "l" threeRecords
           emptyState settledState (λ x, eq_refl) (λ x, eq_refl) H).
Defined.

(** C6, as the spec words it, fails: when the handler fails on record 2 the
    first run stops with the head on record 2 and record 1 published; the
    same call repeated moves the head to record 3, stores its envelope and
    publishes it, and record 2 is never published. *)
Lemma C6_failed_run_is_resumed :
  errorOf poisonRun = Some "handling record failed: reducer failed" ∧
  headOf (stateOf poisonRun) "t" "l" = CidOf 2 ∧
  headOf (stateOf poisonRerun) "t" "l" = CidOf 3 ∧
  (CidOf 3 ∉ bstore (stateOf poisonRun)) ∧
  CidOf 3 ∈ bstore (stateOf poisonRerun) ∧
  bus (stateOf poisonRun) = [sampleThreadRecord 1] ∧
  bus (stateOf poisonRerun) = [sampleThreadRecord 1; sampleThreadRecord 3].
Proof.
  split; [vm_compute; reflexivity|].
  split; [vm_compute; reflexivity|].
  split; [vm_compute; reflexivity|].
  split.
  { apply (bool_decide_eq_false_1 (CidOf 3 ∈ bstore (stateOf poisonRun))).
    vm_compute. reflexivity. }
  split.
  { apply (bool_decide_eq_true_1 (CidOf 3 ∈ bstore (stateOf poisonRerun))).
    vm_compute. reflexivity. }
  split; vm_compute; reflexivity.
Qed.

(** ** The envelope invariant *)






















(** ** Head monotonicity *)

(** C4 fails on the code.  Records 1, 2, 3 form one linear chain.  The
    handler fails once on record 2, so its envelope is never stored; record
    3 is then ingested and the head is record 3.  When record 2 arrives
    again it is not known, the walk back from it never meets the head and
    ends at the genesis record, and the commit loop sets the head to record
    1 and then to record 2: the head is rewound from record 3 to records
    from which record 3 cannot be reached. *)
Theorem C4_head_is_rewound :
  headOf (stateOf poisonRun) "t" "l" = CidOf 2 ∧
  headOf resumedState "t" "l" = CidOf 3 ∧
  isKnown healedWorld (CidOf 2) resumedState = (resumedState, Ok false) ∧
  errorOf latePush = None ∧
  (∃ cs : list Call,
     calls (stateOf latePush) = calls resumedState ++ cs ∧
     headWrites cs = [CidOf 1; CidOf 2]) ∧
  headOf (stateOf latePush) "t" "l" = CidOf 2 ∧
  ¬ Reaches healedWorld "t" (stateOf latePush) (CidOf 1) (CidOf 3) ∧
  ¬ Reaches healedWorld "t" (stateOf latePush) (CidOf 2) (CidOf 3).
Proof.
  split; [vm_compute; reflexivity|].
  split; [vm_compute; reflexivity|].
  split; [vm_compute; reflexivity|].
  split; [vm_compute; reflexivity|].
  split.
  { eexists. split; [vm_compute; reflexivity|]. vm_compute. reflexivity. }
  split; [vm_compute; reflexivity|].
  assert (¬ Reaches healedWorld "t" (stateOf latePush) Undef (CidOf 3)) as H0.
  { intros H. inversion H as [|c r target Hget _]; subst.
    vm_compute in Hget. discriminate. }
  assert (¬ Reaches healedWorld "t" (stateOf latePush) (CidOf 1) (CidOf 3)) as H1.
  { intros H. inversion H as [|c r target Hget Hnext]; subst.
    vm_compute in Hget. inversion Hget; subst. by apply H0. }
  split; [exact H1|].
  intros H. inversion H as [|c r target Hget Hnext]; subst.
  vm_compute in Hget. inversion Hget; subst. by apply H1.
Qed.

(** ** Fuel

    A gap-filling walk that ends within some fuel ends the same way with
    any larger fuel, and so does the whole run. *)

Lemma bridge_fuel_mono w fuel fuel' tid head c chain s out :
  (fuel ≤ fuel')%nat →
  bridge w fuel tid head c chain s = Some out →
  bridge w fuel' tid head c chain s = Some out.
Proof.
  revert fuel' c chain s. induction fuel as [|fuel IH];
    intros fuel' c chain s Hle; simpl.
  - destruct fuel'; simpl; destruct (negb (Defined c)); try done;
      by destruct (Equals c head).
  - destruct fuel' as [|fuel']; [lia|]. simpl.
    destruct (negb (Defined c)); [done|]. destruct (Equals c head); [done|].
    destruct (getRecord w tid c s) as [s1 [r|e]]; [|done].
    apply IH. lia.
Qed.

Lemma gatherChain_fuel_mono w fuel fuel' tid lid recs s out :
  (fuel ≤ fuel')%nat →
  gatherChain w fuel tid lid recs s = Some out →
  gatherChain w fuel' tid lid recs s = Some out.
Proof.
  intros Hle. unfold gatherChain. destruct (rev recs) as [|final before]; [done|].
  destruct (isKnown w (RecordCid final) s) as [s1 [known|e]]; [|done].
  destruct (known || negb (Defined (RecordCid final))); [done|].
  destruct (currentHead w tid lid s1) as [s2 [head|e]]; [|done].
  destruct (walkInputs head (final :: before) []) as [chain complete].
  destruct complete; [done|].
  destruct (bridge w fuel tid head _ chain s2) as [x|] eqn:B; [|done].
  by rewrite (bridge_fuel_mono _ _ _ _ _ _ _ _ _ Hle B).
Qed.

Lemma putRecords_fuel_mono w fuel fuel' tid lid recs s out :
  (fuel ≤ fuel')%nat →
  putRecords w fuel tid lid recs s = Some out →
  putRecords w fuel' tid lid recs s = Some out.
Proof.
  intros Hle. unfold putRecords, loadRecords.
  destruct (gatherChain w fuel tid lid recs s) as [x|] eqn:G; [|done].
  by rewrite (gatherChain_fuel_mono _ _ _ _ _ _ _ _ Hle G).
Qed.

(** ** Head first, then the handler *)

Lemma commitRecords_app w tid lid a b s :
  commitRecords w tid lid (a ++ b) s =
  match commitRecords w tid lid a s with
  | (s1, Ok _) => commitRecords w tid lid b s1
  | (s1, Err e) => (s1, Err e)
  end.
Proof.
  revert s. induction a as [|tr a IH]; intros s; [done|].
  cbn [app commitRecords]. unfold bind.
  destruct (commitRecord w tid lid tr s) as [s1 [[]|e]]; [apply IH|done].
Qed.

Lemma commitRecord_handler_fails w tid lid tr conn e s :
  setHeadErr w tid lid (cidOf tr) = None →
  connectors w tid = Some conn →
  HandleNetRecord conn tr = Some e →
  ∃ s1,
    commitRecord w tid lid tr s
      = (s1, Err ("handling record failed: " +:+ e)) ∧
    heads s1 = <[(tid, lid) := [cidOf tr]]> (heads s) ∧
    bus s1 = bus s ∧
    calls s1 = calls s ++ [SetHeadCall tid lid (cidOf tr) true;
                           HandleCall tr false].
Proof.
  intros Hset Hconn Hfail. unfold cidOf in *.
  unfold commitRecord, bind, wrap, SetHead, handle.
  rewrite Hset. simpl. rewrite Hconn. simpl. rewrite Hfail. simpl.
  eexists. split; [done|]. simpl. by rewrite <- app_assoc.
Qed.

(** A list that ends in the head of the log is not processed. *)
Lemma head_on_last_returns_at_once w fuel tid lid recs final s :
  last recs = Some final →
  hasErr w (RecordCid final) = None →
  headsErr w tid lid = None →
  RecordCid final = headOf s tid lid →
  putRecords w fuel tid lid recs s = Some (s, None).
Proof.
  intros Hlast Hhas Hheads Hhead.
  apply last_Some in Hlast as [init ->].
  unfold putRecords, loadRecords, gatherChain. rewrite rev_unit.
  unfold isKnown. rewrite Hhas.
  destruct (bool_decide (RecordCid final ∈ bstore s)
            || negb (Defined (RecordCid final))); [done|].
  rewrite (currentHead_reads _ _ _ _ Hheads). simpl.
  unfold Equals. rewrite (bool_decide_eq_true_2 _ Hhead).
  by rewrite orb_true_r.
Qed.

(** A run whose handler fails on [tr] after the records [done] went
    through. *)
Lemma putRecords_handler_fails w fuel tid lid recs s s1 head done tr rest
    conn e :
  loadRecords w fuel tid lid recs s
    = Some (s1, (done ++ tr :: rest, head, None)) →
  headsErr w tid lid = None →
  headOf (concurrent w s1) tid lid = head →
  Forall (λ x, commits w tid lid (Value x) = true) done →
  setHeadErr w tid lid (cidOf tr) = None →
  connectors w tid = Some conn →
  HandleNetRecord conn tr = Some e →
  ∃ s' pre,
    putRecords w fuel tid lid recs s
      = Some (s', Some ("handling record failed: " +:+ e)) ∧
    headOf s' tid lid = cidOf tr ∧
    bus s' = bus (concurrent w s1) ++ done ∧
    calls s' = calls s ++ pre ++ [SetHeadCall tid lid (cidOf tr) true;
                                  HandleCall tr false;
                                  ReleaseCall (semaKey tid)].
Proof.
  intros L Hheads Hsame Hdone Hset Hconn Hfail.
  pose proof (loadRecords_frame _ _ _ _ _ _ _ _ L) as [_ _ _ (lc & Hlc & _)].
  destruct (loadRecords_result _ _ _ _ _ _ _ _ _ L) as (gathered & _ & Hmap & _).
  assert (done = map (λ r, NewRecord r tid lid) (map Value done)) as Hshape.
  { assert (Forall (λ x, x = NewRecord (Value x) tid lid) (done ++ tr :: rest))
      as Hall.
    { rewrite Hmap. apply Forall_forall. intros x Hx.
      apply list_elem_of_In, in_map_iff in Hx as (r & <- & _). done. }
    apply Forall_app in Hall as [Hall _]. clear -Hall.
    induction Hall as [|x l Hx _ IH]; [done|]. simpl. by rewrite <- Hx, <- IH. }
  set (s2 := Acquire tid (interfere w s1)).
  destruct (commitRecords_succeeds w tid lid (map Value done) s2) as [sd Cd].
  { apply Forall_forall. intros r Hr.
    apply list_elem_of_In, in_map_iff in Hr as (x & <- & Hx).
    rewrite Forall_forall in Hdone. apply Hdone. by apply list_elem_of_In. }
  rewrite <- Hshape in Cd.
  pose proof Cd as Cd'. apply commitRecords_blocks in Cd' as (cc & Hcc & B).
  apply Blocks_done_state in B as (_ & Hbus & _).
  destruct (commitRecord_handler_fails w tid lid tr conn e sd Hset Hconn Hfail)
    as (sf & Cf & Hfh & Hfb & Hfc).
  exists (Release tid sf), (lc ++ [AcquireCall (semaKey tid)] ++ cc).
  split; [|split; [|split]].
  - assert (putRecords w fuel tid lid recs s
            = Some (released tid
                      (putRecordsLocked w tid lid (done ++ tr :: rest) head s2)))
      as ->.
    { unfold putRecords. rewrite L. by destruct done. }
    assert (putRecordsLocked w tid lid (done ++ tr :: rest) head s2
            = (sf, Err ("handling record failed: " +:+ e))) as ->.
    { rewrite putRecordsLocked_same_head; [|done|done].
      rewrite commitRecords_app, Cd. cbn [commitRecords]. unfold bind.
      by rewrite Cf. }
    done.
  - unfold headOf. simpl. rewrite Hfh. by rewrite lookup_insert_eq.
  - simpl. by rewrite Hfb, Hbus.
  - simpl. rewrite Hfc, Hcc. simpl. rewrite Hlc.
    rewrite <- !app_assoc. simpl. by rewrite <- ?app_assoc.
Qed.

(** C3 (as the code has it): in a [putRecords] run every [HandleNetRecord]
    call comes right after the successful [SetHead] of the same record, and
    with a connector attached every successful [SetHead] is followed at once
    by the [HandleNetRecord] call of that record.  When the handler fails,
    nothing follows but the release of the semaphore, the handler's error is
    returned (wrapped), the head is the failing record's CID, and a later
    call whose input ends in that record returns nil without doing anything:
    the record is not handed to the handler again.  When the records before
    the failing one go through and no other worker moved the head, the run
    publishes exactly those records and ends with the [SetHead] of the
    failing record, the failed handler call and the release. *)
Theorem C3_head_set_before_handle (w : World) (fuel : nat) (tid : ThreadID)
    (lid : LogID) (recs : list NetRecord) (s s' : State) (res : option error) :
  putRecords w fuel tid lid recs s = Some (s', res) →
  ∃ cs : list Call, calls s' = calls s ++ cs ∧
    (∀ pre tr ok post,
       cs = pre ++ HandleCall tr ok :: post →
       ∃ pre', pre = pre' ++ [SetHeadCall tid lid (cidOf tr) true]) ∧
    (∀ pre c post conn,
       cs = pre ++ SetHeadCall tid lid c true :: post →
       connectors w tid = Some conn →
       ∃ tr ok post', c = cidOf tr ∧ post = HandleCall tr ok :: post') ∧
    (∀ pre tr post,
       cs = pre ++ HandleCall tr false :: post →
       post = [ReleaseCall (semaKey tid)] ∧
       headOf s' tid lid = cidOf tr ∧
       (∃ conn e, connectors w tid = Some conn ∧
                  HandleNetRecord conn tr = Some e ∧
                  res = Some ("handling record failed: " +:+ e)) ∧
       (∀ (w' : World) (fuel' : nat) (recs' : list NetRecord) final,
          last recs' = Some final →
          RecordCid final = cidOf tr →
          hasErr w' (cidOf tr) = None →
          headsErr w' tid lid = None →
          putRecords w' fuel' tid lid recs' s' = Some (s', None))) ∧
    (∀ s1 head done tr rest conn e,
       loadRecords w fuel tid lid recs s
         = Some (s1, (done ++ tr :: rest, head, None)) →
       headsErr w tid lid = None →
       headOf (concurrent w s1) tid lid = head →
       Forall (λ x, commits w tid lid (Value x) = true) done →
       setHeadErr w tid lid (cidOf tr) = None →
       connectors w tid = Some conn →
       HandleNetRecord conn tr = Some e →
       res = Some ("handling record failed: " +:+ e) ∧
       headOf s' tid lid = cidOf tr ∧
       bus s' = bus (concurrent w s1) ++ done ∧
       ∃ pre, cs = pre ++ [SetHeadCall tid lid (cidOf tr) true;
                           HandleCall tr false;
                           ReleaseCall (semaKey tid)]).
Proof.
  intros H.
  destruct (putRecords_handle_order _ _ _ _ _ _ _ _ H)
    as (cs & Hcs & Hbefore & Hafter & Hfailed).
  exists cs. split; [done|]. split; [done|]. split; [done|]. split.
  - intros pre tr post E.
    destruct (Hfailed pre tr post E) as (Hpost & Hhead & Herr).
    split; [done|]. split; [done|]. split; [done|].
    intros w' fuel' recs' final Hlast Hfinal Hhas Hheads.
    apply (head_on_last_returns_at_once w' fuel' tid lid recs' final);
      [done| |done|]; by rewrite Hfinal.
  - intros s1 head done tr rest conn e L Hheads Hsame Hdone Hset Hconn Hfail.
    destruct (putRecords_handler_fails _ _ _ _ _ _ _ _ _ _ _ _ _
                L Hheads Hsame Hdone Hset Hconn Hfail)
      as (s'' & pre & Hput & Hhead & Hbus & Hcalls).
    rewrite H in Hput. simplify_eq.
    split; [done|]. split; [done|]. split; [done|].
    exists pre. rewrite Hcs in Hcalls. by apply app_inv_head in Hcalls.
Qed.

Lemma C3_head_set_before_handle_witness :
  poisonRun = Some (stateOf poisonRun, errorOf poisonRun) ∧
  errorOf poisonRun = Some "handling record failed: reducer failed" ∧
  headOf (stateOf poisonRun) "t" "l" = CidOf 2 ∧
  bus (stateOf poisonRun) = [sampleThreadRecord 1] ∧
  (∃ pre, calls (stateOf poisonRun)
          = pre ++ [SetHeadCall "t" "l" (CidOf 2) true;
                    HandleCall (sampleThreadRecord 2) false;
                    ReleaseCall (semaKey "t")]) ∧
  putRecords healedWorld 5 "t" "l" [sampleRecord 1; sampleRecord 2]
             (stateOf poisonRun) = Some (stateOf poisonRun, None).
Proof.
  assert (poisonRun = Some (stateOf poisonRun, errorOf poisonRun)) as H
    by (vm_compute; reflexivity).
  assert (loadRecords poisonWorld 5 "t" "l" threeRecords emptyState
          = Some (loadedState
                    (loadRecords poisonWorld 5 "t" "l" threeRecords emptyState),
                  ([sampleThreadRecord 1] ++ sampleThreadRecord 2
                     :: [sampleThreadRecord 3], Undef, None))) as L
    by (vm_compute; reflexivity).
  destruct (C3_head_set_before_handle poisonWorld 5 "t" "l" threeRecords
              emptyState _ _ H) as (cs & Hcs & _ & _ & Hfailed & Hrun).
  destruct (Hrun _ Undef [sampleThreadRecord 1] (sampleThreadRecord 2)
              [sampleThreadRecord 3] (sampleConnector [CidOf 2])
              "reducer failed" L eq_refl)
    as (Hres & Hhead & Hbus & pre & Hpre).
  { vm_compute. reflexivity. }
  { repeat constructor. }
  { reflexivity. }
  { reflexivity. }
  { reflexivity. }
  destruct (Hfailed (pre ++ [SetHeadCall "t" "l" (CidOf 2) true])
              (sampleThreadRecord 2) [ReleaseCall (semaKey "t")])
    as (_ & _ & _ & Hagain).
  { rewrite Hpre. by rewrite <- app_assoc. }
  split; [exact H|]. split; [exact Hres|]. split; [exact Hhead|].
  split; [exact Hbus|]. split.
  - exists pre. rewrite Hcs, Hpre. reflexivity.
  - exact (Hagain healedWorld 5 [sampleRecord 1; sampleRecord 2]
             (sampleRecord 2) eq_refl eq_refl eq_refl eq_refl).
Defined.

(** C3, as the spec words it, fails: delivery is not at-least-once.  The
    handler fails on record 2 and the head stays on it.  When the same
    records are submitted again and the handler works, the run returns nil
    with the head on record 3: record 3 was handled, record 2 was not handed
    to the handler again, its envelope is not stored and it was never
    published. *)
Lemma C3_failed_record_is_not_redelivered :
  errorOf poisonRun = Some "handling record failed: reducer failed" ∧
  headOf (stateOf poisonRun) "t" "l" = CidOf 2 ∧
  healedRerun = Some (stateOf healedRerun, None) ∧
  headOf (stateOf healedRerun) "t" "l" = CidOf 3 ∧
  HandleCall (sampleThreadRecord 3) true ∈ calls (stateOf healedRerun) ∧
  (HandleCall (sampleThreadRecord 2) true ∉ calls (stateOf healedRerun)) ∧
  List.length (filter (λ c, ∃ ok, c = HandleCall (sampleThreadRecord 2) ok)
                      (calls (stateOf healedRerun))) = 1%nat ∧
  (CidOf 2 ∉ bstore (stateOf healedRerun)) ∧
  bus (stateOf healedRerun) = [sampleThreadRecord 1; sampleThreadRecord 3].
Proof.
  split; [vm_compute; reflexivity|].
  split; [vm_compute; reflexivity|].
  split; [vm_compute; reflexivity|].
  split; [vm_compute; reflexivity|].
  split.
  { apply (bool_decide_eq_true_1
             (HandleCall (sampleThreadRecord 3) true
                ∈ calls (stateOf healedRerun))).
    vm_compute. reflexivity. }
  split.
  { apply (bool_decide_eq_false_1
             (HandleCall (sampleThreadRecord 2) true
                ∈ calls (stateOf healedRerun))).
    vm_compute. reflexivity. }
  split; [vm_compute; reflexivity|].
  split.
  { apply (bool_decide_eq_false_1 (CidOf 2 ∈ bstore (stateOf healedRerun))).
    vm_compute. reflexivity. }
  vm_compute. reflexivity.
Qed.

(** * Further properties of the pipeline *)

(** ** The chain that [loadRecords] gathers *)

Lemma passes_test head r :
  negb (Defined (RecordCid r)) || Equals (RecordCid r) head = false ↔ passes head r.
Proof.
  unfold passes, Equals. rewrite orb_false_iff, negb_false_iff.
  by rewrite bool_decide_eq_false.
Qed.

(** The walk takes records while they pass, and is complete exactly when it
    met one that does not. *)
Lemma walkInputs_spec head rs acc chain complete :
  walkInputs head rs acc = (chain, complete) →
  ∃ taken, chain = acc ++ taken ∧ Forall (passes head) taken ∧
    if complete
    then ∃ stop rest, rs = taken ++ stop :: rest ∧ ¬ passes head stop
    else rs = taken.
Proof.
  revert acc. induction rs as [|next rest IH]; intros acc; simpl.
  - intros H; inversion H; subst. exists []. by rewrite app_nil_r.
  - destruct (negb (Defined (RecordCid next)) || Equals (RecordCid next) head) eqn:E.
    + intros H; inversion H; subst. exists []. rewrite app_nil_r.
      split; [done|]. split; [done|]. exists next, rest. split; [done|].
      rewrite <- passes_test. by rewrite E.
    + apply passes_test in E. intros H.
      apply IH in H as (taken & -> & Hall & Hc).
      exists (next :: taken). split; [by rewrite <- app_assoc|].
      split; [by constructor|]. destruct complete.
      * destruct Hc as (stop & rest' & -> & Hstop). by exists stop, rest'.
      * by rewrite Hc.
Qed.

Lemma walkInputs_stops head taken stop rest acc :
  Forall (passes head) taken → ¬ passes head stop →
  walkInputs head (taken ++ stop :: rest) acc = (acc ++ taken, true).
Proof.
  intros Hall Hstop. revert acc.
  induction Hall as [|r taken Hr _ IH]; intros acc; simpl.
  - destruct (negb _ || _) eqn:E; [by rewrite app_nil_r|].
    by apply passes_test in E.
  - apply passes_test in Hr. rewrite Hr, IH. by rewrite <- app_assoc.
Qed.

Lemma descends_snoc chain x :
  descends (chain ++ [x]) ↔
  descends chain ∧ (∀ y, last chain = Some y → PrevID y = RecordCid x).
Proof.
  induction chain as [|r1 [|r2 chain] IH]; simpl in *.
  - split; [|done]. intros _. split; [done|]. intros y Hy. discriminate.
  - split.
    + intros [H _]. split; [done|]. intros y Hy. by inversion Hy; subst.
    + intros [_ H]. split; [|done]. by apply H.
  - rewrite IH. clear IH. split.
    + intros (H1 & H2 & H3). split; [done|]. done.
    + intros ((H1 & H2) & H3). done.
Qed.

Lemma linked_cons_inv r rest : linked (r :: rest) → linked rest.
Proof. destruct rest; simpl; [done|]. by intros [_ ?]. Qed.

Lemma linked_rev_descends recs : linked recs → descends (rev recs).
Proof.
  induction recs as [|r1 rest IH]; [done|].
  intros H. simpl. apply descends_snoc. split.
  - apply IH. by eapply linked_cons_inv.
  - intros y Hy. destruct rest as [|r2 rest]; [done|].
    simpl in H. destruct H as [H _].
    simpl in Hy. rewrite last_snoc in Hy. by inversion Hy; subst.
Qed.

Lemma descends_rev_linked chain : descends chain → linked (rev chain).
Proof.
  induction chain as [|r1 rest IH]; [done|].
  intros H. simpl.
  assert (descends rest) as Hrest by (destruct rest; simpl in *; tauto).
  specialize (IH Hrest).
  destruct rest as [|r2 rest]; [done|]. simpl in H. destruct H as [H _].
  clear Hrest. revert IH. simpl. generalize (rev rest). intros l.
  induction l as [|a [|b l] IHl]; simpl in *.
  - intros _. split; [|done]. done.
  - intros [Hab _]. split; [done|]. split; [|done]. done.
  - intros [Hab Hl]. split; [done|]. by apply IHl.
Qed.

Lemma descends_prefix l1 l2 : descends (l1 ++ l2) → descends l1.
Proof.
  induction l1 as [|r1 [|r2 l1] IH]; simpl in *; try done.
  intros [H1 H2]. split; [done|]. by apply IH.
Qed.

Lemma descends_junction l1 x l2 y :
  descends (l1 ++ x :: l2) → last l1 = Some y → PrevID y = RecordCid x.
Proof.
  intros H Hy.
  replace (l1 ++ x :: l2) with ((l1 ++ [x]) ++ l2) in H
    by (by rewrite <- app_assoc).
  apply descends_prefix, descends_snoc in H as [_ H]. by apply H.
Qed.

Lemma List_last_Some (l : list NetRecord) d y : last l = Some y → List.last l d = y.
Proof.
  induction l as [|a [|b l] IH]; simpl in *; [done| |].
  - intros H. by inversion H.
  - intros H. by apply IH.
Qed.

Lemma getRecord_cid w tid c s s1 r :
  getRecord w tid c s = (s1, Ok r) → RecordCid r = c.
Proof.
  unfold getRecord, bind, lift, fail.
  destruct (serviceKeys w tid) as [[k|]|e]; try done.
  apply cborGetRecord_cid.
Qed.

(** The gap-filling loop keeps the chain descending and stops on a record
    whose predecessor is the head or is undefined. *)
Lemma bridge_descends w fuel tid head c chain s s' out :
  bridge w fuel tid head c chain s = Some (s', Ok out) →
  descends chain →
  (∃ y, last chain = Some y ∧ PrevID y = c) →
  descends out ∧
  ∃ oldest, last out = Some oldest ∧
    (PrevID oldest = head ∨ Defined (PrevID oldest) = false).
Proof.
  revert c chain s. induction fuel as [|fuel IH]; intros c chain s; simpl.
  - destruct (Defined c) eqn:Ed; simpl.
    + destruct (Equals c head) eqn:Eh; [|done].
      intros H Hd (y & Hy & Hc); inversion H; subst. split; [done|].
      exists y. split; [done|]. left.
      unfold Equals in Eh. by apply bool_decide_eq_true in Eh.
    + intros H Hd (y & Hy & Hc); inversion H; subst. split; [done|].
      exists y. split; [done|]. by right.
  - destruct (Defined c) eqn:Ed; simpl.
    + destruct (Equals c head) eqn:Eh.
      * intros H Hd (y & Hy & Hc); inversion H; subst. split; [done|].
        exists y. split; [done|]. left.
        unfold Equals in Eh. by apply bool_decide_eq_true in Eh.
      * destruct (getRecord w tid c s) as [s1 [r|e]] eqn:G; [|done].
        apply getRecord_cid in G.
        intros H Hd (y & Hy & Hc). eapply IH; [exact H| |].
        -- apply descends_snoc. split; [done|].
           intros y' Hy'. rewrite Hy in Hy'. inversion Hy'; subst. done.
        -- exists r. by rewrite last_snoc.
    + intros H Hd (y & Hy & Hc); inversion H; subst. split; [done|].
      exists y. split; [done|]. by right.
Qed.

(** X1: for an input whose records point to one another, the chain that
    [loadRecords] gathers is a path of [prev] pointers: it starts at the last
    input record, every record points to the next, and the oldest points to
    the head of the log or to no record at all. *)
Theorem gathered_chain_is_a_path (w : World) (fuel : nat) (tid : ThreadID)
    (lid : LogID) (recs : list NetRecord) (s s' : State)
    (chain : list NetRecord) (head : Cid) :
  gatherChain w fuel tid lid recs s = Some (s', (chain, head, None)) →
  linked recs →
  chain ≠ [] →
  descends chain ∧
  linked (rev chain) ∧
  (∃ final older, last recs = Some final ∧ chain = final :: older) ∧
  ∃ oldest, last chain = Some oldest ∧
    (PrevID oldest = head ∨ Defined (PrevID oldest) = false).
Proof.
  intros G Hlinked Hne.
  pose proof (gatherChain_state _ _ _ _ _ _ _ _ G) as ->.
  pose proof (gatherChain_shape _ _ _ _ _ _ _ _ _ G Hne)
    as (_ & _ & final & older & Hlast & Hchain & _).
  assert (descends chain ∧
          ∃ oldest, last chain = Some oldest ∧
            (PrevID oldest = head ∨ Defined (PrevID oldest) = false)) as [Hd Ho].
  { clear Hchain Hlast. pose proof (linked_rev_descends _ Hlinked) as Hrs.
    unfold gatherChain in G.
    destruct (rev recs) as [|final' before] eqn:Erev; [done|].
    destruct (isKnown w (RecordCid final') s) as [s1 [known|e]] eqn:E1; [|done].
    apply isKnown_state in E1 as ->.
    destruct (known || negb (Defined (RecordCid final'))); [by inversion G; subst|].
    destruct (currentHead w tid lid s) as [s1 [head0|e]] eqn:E2; [|done].
    apply currentHead_state in E2 as ->.
    destruct (walkInputs head0 (final' :: before) []) as [c0 complete] eqn:W.
    apply walkInputs_spec in W as (taken & -> & Hall & Hc). cbn [app] in *.
    destruct complete.
    - assert (taken = chain ∧ head0 = head) as [-> ->] by (by inversion G).
      destruct Hc as (stop & rest & Hrs' & Hstop).
      rewrite Hrs' in Hrs. split; [by eapply descends_prefix|].
      destruct (last chain) as [oldest|] eqn:Eo.
      2:{ apply last_None in Eo. by subst. }
      exists oldest. split; [done|].
      rewrite (descends_junction _ _ _ _ Hrs Eo).
      unfold passes in Hstop. destruct (Defined (RecordCid stop)); [|by right].
      left. destruct (decide (RecordCid stop = head)); [done|].
      destruct Hstop. done.
    - subst taken.
      destruct (bridge w fuel tid head0 _ (final' :: before) s)
        as [[s1 [out|e]]|] eqn:B; [|done|done].
      assert (out = chain ∧ head0 = head) as [-> ->] by (by inversion G).
      eapply bridge_descends; [exact B|done|].
      destruct (last (final' :: before)) as [y|] eqn:Ey.
      2:{ by apply last_None in Ey. }
      exists y. split; [done|]. by rewrite (List_last_Some _ final' y Ey). }
  split; [done|]. split; [by apply descends_rev_linked|]. split; [|done].
  by exists final, older.
Qed.

Lemma gathered_chain_is_a_path_witness :
  gatherChain relayWorld 5 "t" "l" [sampleRecord 3] emptyState =
    Some (emptyState,
          ([sampleRecord 3; sampleRecord 2; sampleRecord 1], Undef, None)) ∧
  linked [sampleRecord 3] ∧
  descends [sampleRecord 3; sampleRecord 2; sampleRecord 1] ∧
  linked (rev [sampleRecord 3; sampleRecord 2; sampleRecord 1]).
Proof.
  assert (gatherChain relayWorld 5 "t" "l" [sampleRecord 3] emptyState =
            Some (emptyState,
                  ([sampleRecord 3; sampleRecord 2; sampleRecord 1], Undef, None)))
    as G by reflexivity.
  split; [exact G|]. split; [exact I|].
  destruct (gathered_chain_is_a_path relayWorld 5 "t" "l" [sampleRecord 3]
              emptyState emptyState _ Undef G I ltac:(discriminate))
    as (Hd & Hl & _).
  split; [exact Hd|exact Hl].
Defined.

(** X2: when the input holds a record that is the head of the log (or has
    no CID), [loadRecords] gathers exactly the input records after the last
    such record, newest first, and fetches nothing: the answer is the same
    with no fuel at all. *)
Theorem input_with_head_needs_no_fetch (w : World) (fuel : nat) (tid : ThreadID)
    (lid : LogID) (before : list NetRecord) (h : NetRecord)
    (after : list NetRecord) (final : NetRecord) (s : State) :
  last after = Some final →
  ¬ passes (headOf s tid lid) h →
  Forall (passes (headOf s tid lid)) after →
  hasErr w (RecordCid final) = None →
  RecordCid final ∉ bstore s →
  headsErr w tid lid = None →
  gatherChain w fuel tid lid (before ++ h :: after) s =
    Some (s, (rev after, headOf s tid lid, None)).
Proof.
  intros Hlast Hh Hafter Hhas Hunknown Hheads.
  apply last_Some in Hlast as [init ->].
  assert (passes (headOf s tid lid) final) as [Hdef Hne].
  { rewrite Forall_app, Forall_cons in Hafter. tauto. }
  assert (Forall (passes (headOf s tid lid)) (rev (init ++ [final]))) as Hrev.
  { apply Forall_forall. intros r Hr. rewrite Forall_forall in Hafter.
    apply Hafter. apply list_elem_of_In in Hr. rewrite <- in_rev in Hr.
    by apply list_elem_of_In. }
  unfold gatherChain.
  rewrite rev_app_distr. simpl. rewrite rev_unit in *. simpl.
  unfold isKnown. rewrite Hhas. rewrite bool_decide_eq_false_2 by done.
  rewrite Hdef. simpl. rewrite (currentHead_reads _ _ _ _ Hheads).
  rewrite <- app_assoc. simpl.
  unfold Equals at 1. rewrite (bool_decide_eq_false_2 _ Hne).
  rewrite walkInputs_stops; [done| |done].
  by inversion Hrev.
Qed.

Lemma input_with_head_needs_no_fetch_witness :
  last [sampleRecord 2; sampleRecord 3] = Some (sampleRecord 3) ∧
  gatherChain quietWorld 0 "t" "l"
    ([] ++ sampleRecord 1 :: [sampleRecord 2; sampleRecord 3])
    (otherWorkerCommits (sampleRecord 1) emptyState) =
  Some (otherWorkerCommits (sampleRecord 1) emptyState,
        (rev [sampleRecord 2; sampleRecord 3],
         headOf (otherWorkerCommits (sampleRecord 1) emptyState) "t" "l", None)).
Proof.
  split; [reflexivity|].
  apply (input_with_head_needs_no_fetch quietWorld 0 "t" "l" []
           (sampleRecord 1) [sampleRecord 2; sampleRecord 3] (sampleRecord 3)).
  - reflexivity.
  - intros [_ H]. by apply H.
  - repeat constructor; discriminate.
  - reflexivity.
  - apply (bool_decide_eq_false_1
             (RecordCid (sampleRecord 3)
                ∈ bstore (otherWorkerCommits (sampleRecord 1) emptyState))).
    vm_compute. reflexivity.
  - reflexivity.
Defined.

(** X3: when the last input record is the head of the log, [putRecords]
    returns nil and hands back the state it was given, whether or not the
    envelope of that record is in the blockstore.  A record on which the
    handler failed is therefore not handled again when it is submitted
    again. *)
Theorem last_is_head_changes_nothing (w : World) (fuel : nat) (tid : ThreadID)
    (lid : LogID) (recs : list NetRecord) (final : NetRecord) (s : State) :
  last recs = Some final →
  hasErr w (RecordCid final) = None →
  headsErr w tid lid = None →
  RecordCid final = headOf s tid lid →
  putRecords w fuel tid lid recs s = Some (s, None).
Proof.
  intros Hlast Hhas Hheads Hhead.
  apply last_Some in Hlast as [init ->].
  unfold putRecords, loadRecords, gatherChain. rewrite rev_unit.
  unfold isKnown. rewrite Hhas.
  destruct (bool_decide (RecordCid final ∈ bstore s)
            || negb (Defined (RecordCid final))); [done|].
  rewrite (currentHead_reads _ _ _ _ Hheads). simpl.
  unfold Equals. rewrite (bool_decide_eq_true_2 _ Hhead).
  by rewrite orb_true_r.
Qed.

Lemma last_is_head_changes_nothing_witness :
  last [sampleRecord 1; sampleRecord 2] = Some (sampleRecord 2) ∧
  RecordCid (sampleRecord 2) = headOf (stateOf poisonRun) "t" "l" ∧
  (RecordCid (sampleRecord 2) ∉ bstore (stateOf poisonRun)) ∧
  putRecords healedWorld 5 "t" "l" [sampleRecord 1; sampleRecord 2]
             (stateOf poisonRun) = Some (stateOf poisonRun, None).
Proof.
  assert (RecordCid (sampleRecord 2) = headOf (stateOf poisonRun) "t" "l") as Hh
    by (vm_compute; reflexivity).
  split; [reflexivity|]. split; [exact Hh|]. split.
  { apply (bool_decide_eq_false_1
             (RecordCid (sampleRecord 2) ∈ bstore (stateOf poisonRun))).
    vm_compute. reflexivity. }
  apply (last_is_head_changes_nothing healedWorld 5 "t" "l"
           [sampleRecord 1; sampleRecord 2] (sampleRecord 2));
    [reflexivity | reflexivity | reflexivity | exact Hh].
Defined.

(** ** What a run writes *)









Lemma Block_frame w tid lid tr s s1 r blk :
  Block w tid lid tr s s1 r blk →
  (∀ k, k ≠ (tid, lid) → heads s1 !! k = heads s !! k) ∧
  bstore s ⊆ bstore s1 ∧
  (bus s1 = bus s ∧ r ≠ Ok tt ∨
   bus s1 = bus s ++ [tr] ∧ r = Ok tt ∧ cidOf tr ∈ bstore s1).
Proof.
  intros B.
  destruct B as [e ? Hs Hh Hu|conn e ? ? ? Hs Hh Hu|e ? ? Hs Hh Hu
                |e ? ? ? Hs Hh Hu|? ? ? ? Hs Hh Hu];
    rewrite Hs, Hh, Hu; (split; [|split]);
    try (intros k Hk; by rewrite ?lookup_insert_ne);
    try done; try (by apply union_subseteq_r); try (by left).
  right. split; [done|]. split; [done|]. apply elem_of_union_l.
  by apply elem_of_singleton.
Qed.

(** The commit loop publishes a prefix of its records, in order, each with
    its envelope stored, and touches no other log. *)
Lemma Blocks_frame w tid lid chain s s' r cc :
  Blocks w tid lid chain s s' r cc →
  (∀ k, k ≠ (tid, lid) → heads s' !! k = heads s !! k) ∧
  bstore s ⊆ bstore s' ∧
  ∃ published,
    bus s' = bus s ++ published ∧ published `prefix_of` chain ∧
    Forall (λ tr, cidOf tr ∈ bstore s') published ∧
    (r = Ok tt → published = chain).
Proof.
  induction 1 as [s s' Hs Hh Hu | tr0 chain s s1 s' r blk cc B _ IH
                 | tr0 chain s s1 e blk B].
  - split; [intros k _; by rewrite Hh|]. split; [by rewrite Hs|].
    exists []. rewrite app_nil_r. by repeat split.
  - destruct (Block_frame _ _ _ _ _ _ _ _ B) as (Fh & Fb & Fu).
    destruct IH as (Ih & Ib & published & Iu & Ipre & Iknown & Iok).
    destruct Fu as [[_ ?]|(Fu & _ & Fk)]; [done|].
    split; [intros k Hk; by rewrite Ih, Fh|]. split; [by etrans|].
    exists (tr0 :: published). split; [rewrite Iu, Fu; by rewrite <- app_assoc|].
    split; [by apply prefix_cons|]. split.
    + constructor; [by apply Ib|done].
    + intros Hr. by rewrite (Iok Hr).
  - destruct (Block_frame _ _ _ _ _ _ _ _ B) as (Fh & Fb & Fu).
    destruct Fu as [[Fu _]|(_ & ? & _)]; [|done].
    split; [done|]. split; [done|]. exists []. rewrite app_nil_r.
    split; [done|]. split; [apply prefix_nil|]. by split.
Qed.

(** What followed [loadRecords] in a run: nothing, or the commit loop on a
    suffix of the loaded chain between Acquire and Release. *)
Lemma putRecords_commit w fuel tid lid recs s s' res :
  putRecords w fuel tid lid recs s = Some (s', res) →
  ∃ s1 chain head err,
    loadRecords w fuel tid lid recs s = Some (s1, (chain, head, err)) ∧
    (s' = s1 ∧ (res = None → chain = []) ∨
     err = None ∧
     ∃ todo s3 r cc,
       todo `suffix_of` chain ∧
       Blocks w tid lid todo (Acquire tid (interfere w s1)) s3 r cc ∧
       s' = Release tid s3 ∧
       (res = None → r = Ok tt)).
Proof.
  intros H. pose proof H as H0. apply putRecords_cases in H
    as [(F & chain & head & err & L & Hnil)
       |(s1 & chain & head & s3 & r & L & _ & F & P & -> & ->)].
  { exists s', chain, head, err. split; [done|]. left. split; [done|].
    intros ->. destruct err as [e|]; [|by apply Hnil].
    unfold putRecords in H0. rewrite L in H0. by destruct chain. }
  exists s1, chain, head, None. split; [done|]. right. split; [done|].
  apply putRecordsLocked_cases in P as [(-> & e & _ & ->)|(todo & Hsuf & C)].
  - exists [], (Acquire tid (interfere w s1)), (Ok tt), [].
    split; [apply suffix_nil|]. split; [by constructor|]. by split.
  - apply commitRecords_blocks in C as (cc & _ & B).
    exists todo, s3, r, cc. split; [done|]. split; [done|]. split; [done|].
    destruct r as [[]|e]; [done|]. discriminate.
Qed.

(** X5: a run never sets the head of another log and never removes a
    block from the blockstore. *)
Theorem other_logs_and_blocks_are_kept (w : World) (fuel : nat) (tid : ThreadID)
    (lid : LogID) (recs : list NetRecord) (s s' : State) (res : option error) :
  (∀ x, heads (concurrent w x) = heads x) →
  (∀ x, bstore x ⊆ bstore (concurrent w x)) →
  putRecords w fuel tid lid recs s = Some (s', res) →
  (∀ k, k ≠ (tid, lid) → heads s' !! k = heads s !! k) ∧
  bstore s ⊆ bstore s'.
Proof.
  intros Hheads Hblocks H.
  destruct (putRecords_commit _ _ _ _ _ _ _ _ H)
    as (s1 & chain & head & err & L & Hcase).
  pose proof (loadRecords_frame _ _ _ _ _ _ _ _ L) as [Fh _ Fb _].
  destruct Hcase as [[-> _]|(-> & todo & s3 & r & cc & _ & B & -> & _)].
  - split; [intros k _; by rewrite Fh|done].
  - apply Blocks_frame in B as (Bh & Bb & _). simpl in *. split.
    + intros k Hk. by rewrite (Bh k Hk), Hheads, Fh.
    + etrans; [exact Fb|]. etrans; [apply Hblocks|done].
Qed.

Lemma other_logs_and_blocks_are_kept_witness :
  (∀ x, heads (concurrent poisonWorld x) = heads x) ∧
  (∀ x, bstore x ⊆ bstore (concurrent poisonWorld x)) ∧
  poisonRerun = Some (stateOf poisonRerun, errorOf poisonRerun) ∧
  (∀ k, k ≠ ("t", "l") →
        heads (stateOf poisonRerun) !! k = heads (stateOf poisonRun) !! k) ∧
  bstore (stateOf poisonRun) ⊆ bstore (stateOf poisonRerun).
Proof.
  assert (poisonRerun = Some (stateOf poisonRerun, errorOf poisonRerun)) as H
    by (vm_compute; reflexivity).
  split; [reflexivity|]. split; [reflexivity|]. split; [exact H|].
  exact (other_logs_and_blocks_are_kept poisonWorld 5 "t" "l" threeRecords
           (stateOf poisonRun) _ _ (λ x, eq_refl) (λ x, reflexivity _) H).
Defined.

(** X6: the bus grows by consecutive records of the loaded chain, in chain
    order; every published record has its envelope in the blockstore; when
    the run returns nil the published records reach the end of the chain. *)
Theorem records_are_published_in_chain_order (w : World) (fuel : nat)
    (tid : ThreadID) (lid : LogID) (recs : list NetRecord) (s s' : State)
    (res : option error) :
  (∀ x, bus (concurrent w x) = bus x) →
  putRecords w fuel tid lid recs s = Some (s', res) →
  ∃ s1 chain head err published,
    loadRecords w fuel tid lid recs s = Some (s1, (chain, head, err)) ∧
    bus s' = bus s ++ published ∧
    (∃ skipped rest, chain = skipped ++ published ++ rest) ∧
    Forall (λ tr, cidOf tr ∈ bstore s') published ∧
    (res = None → published `suffix_of` chain).
Proof.
  intros Hbus H.
  destruct (putRecords_commit _ _ _ _ _ _ _ _ H)
    as (s1 & chain & head & err & L & Hcase).
  pose proof (loadRecords_frame _ _ _ _ _ _ _ _ L) as [_ Fu _ _].
  exists s1, chain, head, err.
  destruct Hcase as [[-> _]|(-> & todo & s3 & r & cc & [skipped ->] & B & -> & Hok)].
  - exists []. rewrite app_nil_r. split; [done|]. split; [done|].
    split; [by exists [], chain|]. split; [done|]. intros _. apply suffix_nil.
  - apply Blocks_frame in B as (_ & _ & published & Bu & [rest ->] & Bk & Bok).
    exists published. split; [done|]. split.
    { simpl in *. by rewrite Bu, Hbus, Fu. }
    split; [by exists skipped, rest|]. split; [done|].
    intros Hres. assert (rest = []) as ->.
    { apply (app_inv_head published). rewrite app_nil_r.
      symmetry. exact (Bok (Hok Hres)). }
    rewrite app_nil_r. by exists skipped.
Qed.

Lemma records_are_published_in_chain_order_witness :
  (∀ x, bus (concurrent poisonWorld x) = bus x) ∧
  poisonRun = Some (stateOf poisonRun, errorOf poisonRun) ∧
  ∃ s1 chain head err published,
    loadRecords poisonWorld 5 "t" "l" threeRecords emptyState =
      Some (s1, (chain, head, err)) ∧
    bus (stateOf poisonRun) = bus emptyState ++ published ∧
    (∃ skipped rest, chain = skipped ++ published ++ rest) ∧
    Forall (λ tr, cidOf tr ∈ bstore (stateOf poisonRun)) published ∧
    (errorOf poisonRun = None → published `suffix_of` chain).
Proof.
  assert (poisonRun = Some (stateOf poisonRun, errorOf poisonRun)) as H
    by (vm_compute; reflexivity).
  split; [reflexivity|]. split; [exact H|].
  exact (records_are_published_in_chain_order poisonWorld 5 "t" "l" threeRecords
           emptyState _ _ (λ x, eq_refl) H).
Defined.

Lemma Block_send_failed w tid lid tr s s1 r blk pre tr' post :
  Block w tid lid tr s s1 r blk →
  blk = pre ++ SendCall tr' false :: post →
  tr' = tr ∧ post = [] ∧ AddCall (Value tr) true ∈ pre ∧
  headOf s1 tid lid = cidOf tr ∧ cidOf tr ∈ bstore s1 ∧ bus s1 = bus s ∧
  ∃ e, sendErr w tr = Some e ∧ r = Err e.
Proof.
  intros Hb E.
  destruct Hb as [e ? Hs Hh Hu|conn e ? ? ? Hs Hh Hu|e ? ? Hs Hh Hu
                 |e ? ? ? Hs Hh Hu|? ? ? ? Hs Hh Hu];
    unfold handled in E;
    try destruct (connectors w tid) eqn:?; simpl in E; positions E;
    subst; try discriminate; simplify_eq.
  all: split; [done|]; split; [done|];
    (split; [apply list_elem_of_In; simpl; tauto|]);
    (split; [by eapply headOf_insert|]);
    (split; [rewrite Hs; apply elem_of_union_l; by apply elem_of_singleton|]);
    split; [done|]; by exists e.
Qed.

Lemma Blocks_send_failed w tid lid chain s s' r cc pre tr post :
  Blocks w tid lid chain s s' r cc →
  cc = pre ++ SendCall tr false :: post →
  post = [] ∧ AddCall (Value tr) true ∈ pre ∧
  headOf s' tid lid = cidOf tr ∧ cidOf tr ∈ bstore s' ∧
  ∃ e, sendErr w tr = Some e ∧ r = Err e.
Proof.
  intros Hb. revert pre. induction Hb as [| tr0 chain s s1 s' r blk cc B _ IH
                                          | tr0 chain s s1 e blk B]; intros pre E.
  - by destruct pre.
  - apply app_split_at in E as [(mid & E & _)|(mid & -> & E)].
    + destruct (Block_send_failed _ _ _ _ _ _ _ _ _ _ _ B E)
        as (_ & _ & _ & _ & _ & _ & ? & _ & ?). discriminate.
    + destruct (IH _ E) as (? & ? & ? & ? & ?). repeat split; try done.
      apply elem_of_app. by right.
  - destruct (Block_send_failed _ _ _ _ _ _ _ _ _ _ _ B E)
      as (-> & ? & ? & ? & ? & _ & ?). done.
Qed.

(** A whole run: the calls of the load phase, then possibly the commit loop
    between Acquire and Release, whose outcome is the result of the run. *)
Lemma putRecords_trace w fuel tid lid recs s s' res :
  putRecords w fuel tid lid recs s = Some (s', res) →
  ∃ s1 chain head err (lc : list Call),
    loadRecords w fuel tid lid recs s = Some (s1, (chain, head, err)) ∧
    calls s1 = calls s ++ lc ∧ Forall (λ c, loadCall c = true) lc ∧
    (s' = s1 ∨
     err = None ∧
     ∃ todo s3 r cc,
       todo `suffix_of` chain ∧
       Blocks w tid lid todo (Acquire tid (interfere w s1)) s3 r cc ∧
       s' = Release tid s3 ∧
       calls s' = calls s1 ++ [AcquireCall (semaKey tid)] ++ cc
                    ++ [ReleaseCall (semaKey tid)] ∧
       (cc = [] ∨ res = outcome r)).
Proof.
  intros H. apply putRecords_cases in H
    as [(F & chain & head & err & L & _)
       |(s1 & chain & head & s3 & r & L & _ & F & P & -> & ->)];
    destruct F as [_ _ _ (lc & Hlc & Hall)].
  { exists s', chain, head, err, lc. repeat split; try done. by left. }
  exists s1, chain, head, None, lc. repeat split; try done. right.
  split; [done|].
  apply putRecordsLocked_cases in P as [(-> & _)|(todo & Hsuf & C)].
  - exists [], (Acquire tid (interfere w s1)), (Ok tt), [].
    split; [apply suffix_nil|]. split; [by constructor|]. split; [done|].
    split; [|by left]. simpl. by rewrite <- app_assoc.
  - apply commitRecords_blocks in C as (cc & Hcc & B).
    exists todo, s3, r, cc. split; [done|]. split; [done|]. split; [done|].
    split; [|by right]. simpl. rewrite Hcc. simpl. by rewrite <- !app_assoc.
Qed.

(** X7: when the bus does not take a record in time the run ends there:
    the only call left is the release of the thread semaphore, the error of
    the bus is returned as it is, and the record is already the head of the
    log with its envelope in the blockstore. *)
Theorem bus_timeout_leaves_record_committed (w : World) (fuel : nat)
    (tid : ThreadID) (lid : LogID) (recs : list NetRecord) (s s' : State)
    (res : option error) :
  putRecords w fuel tid lid recs s = Some (s', res) →
  ∃ cs : list Call, calls s' = calls s ++ cs ∧
    ∀ pre tr post,
      cs = pre ++ SendCall tr false :: post →
      post = [ReleaseCall (semaKey tid)] ∧
      AddCall (Value tr) true ∈ pre ∧
      headOf s' tid lid = cidOf tr ∧ cidOf tr ∈ bstore s' ∧
      ∃ e, sendErr w tr = Some e ∧ res = Some e.
Proof.
  intros H.
  destruct (putRecords_trace _ _ _ _ _ _ _ _ H)
    as (s1 & chain & head & err & lc & L & Hlc & Hall & Hcase).
  set (Q := λ x : Call, ∃ tr ok, x = SendCall tr ok).
  assert (Forall (λ x, ¬ Q x) lc) as Hno.
  { eapply Forall_impl; [exact Hall|].
    intros x Hx (tr & ok & ->). discriminate. }
  destruct Hcase as [->|(-> & todo & s3 & r & cc & Hsuf & B & -> & Hcs & Hres)].
  - exists lc. split; [done|]. intros pre tr post ->.
    rewrite Forall_app, Forall_cons in Hno. destruct Hno as (_ & Hq & _).
    destruct Hq. by exists tr, false.
  - exists ((lc ++ [AcquireCall (semaKey tid)]) ++ cc
              ++ [ReleaseCall (semaKey tid)]).
    split; [rewrite Hcs, Hlc; by rewrite <- !app_assoc|].
    intros pre tr post E.
    apply (locate_call Q) in E as (pre0 & post0 & E & -> & ->).
    + destruct (Blocks_send_failed _ _ _ _ _ _ _ _ _ _ _ B E)
        as (-> & Hadd & Hhead & Hknown & e & Hsend & ->).
      split; [done|]. split; [apply elem_of_app; by right|].
      split; [done|]. split; [done|]. exists e. split; [done|].
      destruct Hres as [-> | ->]; [by destruct pre0|done].
    + apply Forall_app. split; [done|]. constructor; [|done].
      intros (? & ? & ?); discriminate.
    + constructor; [|done]. intros (? & ? & ?); discriminate.
    + by exists tr, false.
Qed.

Lemma bus_timeout_leaves_record_committed_witness :
  slowBusRun = Some (stateOf slowBusRun, Some "bus timeout") ∧
  ∃ cs : list Call, calls (stateOf slowBusRun) = calls emptyState ++ cs ∧
    ∀ pre tr post,
      cs = pre ++ SendCall tr false :: post →
      post = [ReleaseCall (semaKey "t")] ∧
      AddCall (Value tr) true ∈ pre ∧
      headOf (stateOf slowBusRun) "t" "l" = cidOf tr ∧
      cidOf tr ∈ bstore (stateOf slowBusRun) ∧
      ∃ e, sendErr slowBusWorld tr = Some e ∧ Some "bus timeout" = Some e.
Proof.
  assert (slowBusRun = Some (stateOf slowBusRun, Some "bus timeout")) as H
    by (vm_compute; reflexivity).
  split; [exact H|].
  exact (bus_timeout_leaves_record_committed slowBusWorld 5 "t" "l" threeRecords
           emptyState _ _ H).
Defined.

(** ** Pages of [getLocalRecords] *)

Lemma walkLocal_extends w room sk offset cursor recs s :
  recs `suffix_of` (walkLocal w room sk offset cursor recs s).1.
Proof.
  revert cursor recs s. induction room as [|room IH]; intros cursor recs s;
    simpl; [done|].
  destruct (negb (Defined cursor) || Equals cursor offset); [done|].
  destruct (cborGetRecord w cursor sk s) as [s1 [r|e]]; [|done].
  etrans; [|apply IH]. by apply suffix_cons_r.
Qed.

Lemma walkLocal_more w room room' sk offset cursor recs s :
  (room ≤ room')%nat →
  (walkLocal w room sk offset cursor recs s).1
    `suffix_of` (walkLocal w room' sk offset cursor recs s).1 ∧
  ((List.length (walkLocal w room sk offset cursor recs s).1
      < List.length recs + room)%nat ∨
   (walkLocal w room sk offset cursor recs s).2 ≠ None →
   walkLocal w room' sk offset cursor recs s
   = walkLocal w room sk offset cursor recs s).
Proof.
  revert room' cursor recs s. induction room as [|room IH];
    intros room' cursor recs s Hle.
  - simpl. split; [apply walkLocal_extends|]. intros [?|?]; [lia|done].
  - destruct room' as [|room']; [lia|]. simpl.
    destruct (negb (Defined cursor) || Equals cursor offset); [done|].
    destruct (cborGetRecord w cursor sk s) as [s1 [r|e]]; [|done].
    destruct (IH room' (PrevID r) (r :: recs) s1) as [Hsuf Hsame]; [lia|].
    split; [done|]. intros Hc. apply Hsame.
    destruct Hc as [Hc|Hc]; [left; simpl; lia|by right].
Qed.

(** X8: asking [getLocalRecords] for more records only adds older ones in
    front: the answer for a limit is the newest end of the answer for a
    larger limit; an answer that stayed below its limit, or that came with
    an error, is the answer for every larger limit. *)
Theorem larger_limit_adds_older_records (w : World) (tid : ThreadID)
    (lid : LogID) (offset : Cid) (limit limit' : Z) (s : State) :
  (limit ≤ limit')%Z →
  (getLocalRecords w tid lid offset limit s).1
    `suffix_of` (getLocalRecords w tid lid offset limit' s).1 ∧
  ((Z.of_nat (List.length (getLocalRecords w tid lid offset limit s).1)
      < limit)%Z ∨
   (getLocalRecords w tid lid offset limit s).2 ≠ None →
   getLocalRecords w tid lid offset limit' s
   = getLocalRecords w tid lid offset limit s).
Proof.
  intros Hle. unfold getLocalRecords.
  destruct (if Defined offset then isKnown w offset s else (s, Ok true))
    as [s0 [[|]|e]]; [|done..].
  destruct (GetLogHead w tid lid s) as [s1 [head|e]]; [|done].
  destruct (serviceKeys w tid) as [[sk|]|e]; [|done..].
  destruct (walkLocal_more w (Z.to_nat limit) (Z.to_nat limit') sk offset head
              [] s) as [Hsuf Hsame]; [lia|].
  split; [done|]. intros Hc. apply Hsame.
  destruct Hc as [Hc|Hc]; [left; simpl; lia|by right].
Qed.

Lemma larger_limit_adds_older_records_witness :
  (2 ≤ 5)%Z ∧
  (getLocalRecords quietWorld "t" "l" (CidOf 1) 2 settledState).1
    `suffix_of` (getLocalRecords quietWorld "t" "l" (CidOf 1) 5 settledState).1 ∧
  ((Z.of_nat (List.length
       (getLocalRecords quietWorld "t" "l" (CidOf 1) 2 settledState).1) < 2)%Z ∨
   (getLocalRecords quietWorld "t" "l" (CidOf 1) 2 settledState).2 ≠ None →
   getLocalRecords quietWorld "t" "l" (CidOf 1) 5 settledState
   = getLocalRecords quietWorld "t" "l" (CidOf 1) 2 settledState).
Proof.
  split; [lia|].
  apply (larger_limit_adds_older_records quietWorld "t" "l" (CidOf 1) 2 5
           settledState).
  lia.
Defined.

(** * Pulling and adding records *)

(** ** The peers to call *)

Lemma callablePeer_callable net addr pid :
  callablePeer net addr = Ok (pid, true) → pid ≠ hostID net.
Proof.
  unfold callablePeer. destruct (valueForP2P net addr) as [p|e]; [|done].
  destruct (peerDecode net p) as [q|e]; [|done].
  destruct (bool_decide (q = hostID net)) eqn:E; [done|].
  apply bool_decide_eq_false in E. intros H; by simplify_eq.
Qed.

Lemma collectPeers_ok net addrs pm out :
  collectPeers net addrs pm = Ok out →
  ∀ p, p ∈ out ↔
       p ∈ pm ∨ ∃ addr, addr ∈ addrs ∧ callablePeer net addr = Ok (p, true).
Proof.
  revert pm. induction addrs as [|addr rest IH]; intros pm; simpl.
  - intros H p. simplify_eq. split; [by left|].
    intros [?|(? & Hin & _)]; [done|]. by apply elem_of_nil in Hin.
  - destruct (callablePeer net addr) as [[pid [|]]|e] eqn:C; [| |done];
      intros H p; rewrite (IH _ H p).
    + rewrite elem_of_union, elem_of_singleton. split.
      * intros [[->|?]|(a & Hin & Ha)]; [right|by left|right].
        -- exists addr. split; [by left|done].
        -- exists a. split; [by right|done].
      * intros [?|(a & Hin & Ha)]; [left; by right|].
        apply elem_of_cons in Hin as [->|Hin].
        -- left. left. congruence.
        -- right. by exists a.
    + split.
      * intros [?|(a & Hin & Ha)]; [by left|right].
        exists a. split; [by right|done].
      * intros [?|(a & Hin & Ha)]; [by left|].
        apply elem_of_cons in Hin as [->|Hin]; [congruence|].
        right. by exists a.
Qed.

Lemma collectPeers_err net addrs pm e :
  collectPeers net addrs pm = Err e →
  ∃ before addr after,
    addrs = before ++ addr :: after ∧ callablePeer net addr = Err e ∧
    Forall (λ a, ∃ r, callablePeer net a = Ok r) before.
Proof.
  revert pm. induction addrs as [|addr rest IH]; intros pm; simpl; [done|].
  destruct (callablePeer net addr) as [[pid [|]]|e'] eqn:C.
  - intros H. destruct (IH _ H) as (before & a & after & -> & Ha & Hall).
    exists (addr :: before), a, after. split; [done|]. split; [done|].
    constructor; [by eexists|done].
  - intros H. destruct (IH _ H) as (before & a & after & -> & Ha & Hall).
    exists (addr :: before), a, after. split; [done|]. split; [done|].
    constructor; [by eexists|done].
  - intros H. simplify_eq. by exists [], addr, rest.
Qed.

(** X9: [uniquePeers] answers with the peers the addresses lead to, each
    once and never the host itself; it fails exactly with the error of the
    first address that cannot be read, whatever the other addresses are. *)
Theorem unique_peers_are_the_callable_ones (net : Network)
    (addrs : list Multiaddr) :
  match uniquePeers net addrs with
  | Ok peers =>
      NoDup peers ∧ (hostID net ∉ peers) ∧
      ∀ p, p ∈ peers ↔
           ∃ addr, addr ∈ addrs ∧ callablePeer net addr = Ok (p, true)
  | Err e =>
      ∃ before addr after,
        addrs = before ++ addr :: after ∧ callablePeer net addr = Err e ∧
        Forall (λ a, ∃ r, callablePeer net a = Ok r) before
  end.
Proof.
  unfold uniquePeers.
  destruct (collectPeers net addrs ∅) as [pm|e] eqn:C.
  - pose proof (collectPeers_ok _ _ _ _ C) as Hin.
    assert (∀ p, p ∈ elements pm ↔
              ∃ addr, addr ∈ addrs ∧ callablePeer net addr = Ok (p, true))
      as Hpeers.
    { intros p. rewrite elem_of_elements, Hin. split; [|by right].
      intros [Hp|?]; [|done]. by apply elem_of_empty in Hp. }
    split; [apply NoDup_elements|]. split; [|done].
    intros Hhost. apply Hpeers in Hhost as (addr & _ & Ha).
    by apply callablePeer_callable in Ha.
  - by eapply collectPeers_err.
Qed.

(** ** The offsets of a pull *)

Lemma gatherOffsets_spec w tid logs offs addrs s s' offs' addrs' :
  gatherOffsets w logs offs addrs s = (s', Ok (offs', addrs')) →
  Forall (λ lg, Head lg = headOf s tid (ID lg)) logs →
  s' = s ∧
  (∀ lid, lid ∉ ID <$> logs → offs' !! lid = offs !! lid) ∧
  (∀ lid, lid ∈ ID <$> logs →
     ∃ c, offs' !! lid = Some c ∧
          (c = Undef ∨ (c = headOf s tid lid ∧ c ∈ bstore s)) ∧
          (headOf s tid lid ∈ bstore s → c = headOf s tid lid)).
Proof.
  revert offs addrs. induction logs as [|lg rest IH]; intros offs addrs H Hall.
  - simpl in H. unfold ret in H. simplify_eq. split; [done|]. split; [done|].
    intros lid Hin. by apply elem_of_nil in Hin.
  - apply Forall_cons in Hall as [Hhead Hall].
    simpl in H. unfold bind in H.
    destruct ((if Defined (Head lg) then isKnown w (Head lg) else ret false) s)
      as [s1 [has|e]] eqn:K; [|done].
    assert (s1 = s ∧ (has = true → Head lg ∈ bstore s) ∧
            (has = false → Head lg ∈ bstore s → Head lg = Undef))
      as (-> & Hyes & Hno).
    { destruct (Defined (Head lg)) eqn:D.
      - unfold isKnown in K. destruct (hasErr w (Head lg)); [done|].
        simplify_eq. split; [done|]. split.
        + intros E. by apply bool_decide_eq_true in E.
        + intros E Hin. by apply bool_decide_eq_false in E.
      - unfold ret in K. simplify_eq. split; [done|]. split; [done|].
        intros _ _. by destruct (Head lg). }
    destruct (IH _ _ H Hall) as (-> & Hout & Hin). split; [done|]. split.
    + intros lid Hlid. rewrite fmap_cons, not_elem_of_cons in Hlid.
      destruct Hlid as [Hne Hrest].
      rewrite (Hout lid Hrest). by apply lookup_insert_ne.
    + intros lid Hlid. destruct (decide (lid ∈ ID <$> rest)) as [Hr|Hr].
      { by apply Hin. }
      rewrite fmap_cons in Hlid. apply elem_of_cons in Hlid as [->|?]; [|done].
      rewrite (Hout _ Hr), lookup_insert_eq. eexists. split; [done|].
      rewrite <- Hhead. destruct has.
      * split; [right; split; [done|by apply Hyes]|done].
      * split; [by left|]. intros Hk. symmetry. by apply Hno.
Qed.

Lemma threadLogs_ids net tid s s' logs :
  threadLogs net tid s = (s', Ok logs) →
  s' = s ∧ Forall (λ lg, Head lg = headOf s tid (ID lg)) logs ∧
  ∃ entries, getThread net tid = Ok entries ∧ ID <$> logs = entries.*1.
Proof.
  unfold threadLogs. destruct (getThread net tid) as [entries|e]; [|done].
  intros H. simplify_eq. split; [done|]. split.
  - apply Forall_forall. intros lg Hin. apply list_elem_of_In in Hin.
    apply in_map_iff in Hin as (x & <- & _). done.
  - exists entries. split; [done|]. induction entries as [|x rest IH]; [done|].
    rewrite !fmap_cons. simpl. by f_equal.
Qed.

(** X10: the offsets of a pull cover exactly the logs of the thread; the
    offset of a log is its head when the envelope of the head is in the
    blockstore and is undefined otherwise; reading them changes nothing. *)
Theorem offsets_are_known_heads (net : Network) (w : World) (tid : ThreadID)
    (s s' : State) (offsets : gmap LogID Cid) (peers : list PeerID) :
  threadOffsets net w tid s = (s', Ok (offsets, peers)) →
  s' = s ∧
  ∃ logs, getThread net tid = Ok logs ∧
    (∀ lid, is_Some (offsets !! lid) ↔ lid ∈ logs.*1) ∧
    (∀ lid c, offsets !! lid = Some c →
       c = Undef ∨ (c = headOf s tid lid ∧ c ∈ bstore s)) ∧
    (∀ lid, lid ∈ logs.*1 → headOf s tid lid ∈ bstore s →
       offsets !! lid = Some (headOf s tid lid)).
Proof.
  unfold threadOffsets, bind, lift, ret. intros H.
  destruct (threadLogs net tid s) as [s1 [logs|e]] eqn:T; [|done].
  apply threadLogs_ids in T as (-> & Hheads & entries & Hget & Hids).
  destruct (gatherOffsets w logs ∅ [] s) as [s2 [[offs addrs]|e]] eqn:G; [|done].
  destruct (gatherOffsets_spec _ tid _ _ _ _ _ _ _ G Hheads)
    as (-> & Hout & Hin).
  simpl in H. destruct (uniquePeers net addrs) as [ps|e]; [|done].
  simplify_eq. split; [done|]. exists entries. split; [done|].
  rewrite <- Hids. split; [|split].
  - intros lid. split.
    + intros Hsome. destruct (decide (lid ∈ ID <$> logs)) as [|Hn]; [done|].
      rewrite (Hout _ Hn), lookup_empty in Hsome. by destruct Hsome.
    + intros Hlid. destruct (Hin _ Hlid) as (c & -> & _). by eexists.
  - intros lid c Hc. destruct (decide (lid ∈ ID <$> logs)) as [Hy|Hn].
    + destruct (Hin _ Hy) as (c' & Hc' & Hcase & _). congruence.
    + by rewrite (Hout _ Hn), lookup_empty in Hc.
  - intros lid Hlid Hknown. destruct (Hin _ Hlid) as (c & -> & _ & Hc).
    by rewrite (Hc Hknown).
Qed.

Lemma offsets_are_known_heads_witness :
  threadOffsets (sampleNetwork sampleReply) quietWorld "t" settledState
    = (settledState, Ok (sampleOffsets.1, sampleOffsets.2)) ∧
  sampleOffsets.1 !! "l" = Some (CidOf 3) ∧
  settledState = settledState ∧
  ∃ logs, getThread (sampleNetwork sampleReply) "t" = Ok logs ∧
    (∀ lid, is_Some (sampleOffsets.1 !! lid) ↔ lid ∈ logs.*1) ∧
    (∀ lid c, sampleOffsets.1 !! lid = Some c →
       c = Undef ∨ (c = headOf settledState "t" lid ∧ c ∈ bstore settledState)) ∧
    (∀ lid, lid ∈ logs.*1 → headOf settledState "t" lid ∈ bstore settledState →
       sampleOffsets.1 !! lid = Some (headOf settledState "t" lid)).
Proof.
  assert (threadOffsets (sampleNetwork sampleReply) quietWorld "t" settledState
            = (settledState, Ok (sampleOffsets.1, sampleOffsets.2))) as H
    by (vm_compute; reflexivity).
  split; [exact H|]. split; [vm_compute; reflexivity|].
  exact (offsets_are_known_heads (sampleNetwork sampleReply) quietWorld "t"
           settledState settledState _ _ H).
Defined.

(** ** Pulls *)

Lemma gatherOffsets_state w logs offs addrs s :
  (gatherOffsets w logs offs addrs s).1 = s.
Proof.
  revert offs addrs. induction logs as [|lg rest IH]; intros offs addrs;
    simpl; [done|].
  unfold bind.
  destruct ((if Defined (Head lg) then isKnown w (Head lg) else ret false) s)
    as [s1 r] eqn:K.
  assert (s1 = s) as ->.
  { destruct (Defined (Head lg)); [|unfold ret in K; by simplify_eq].
    unfold isKnown in K. destruct (hasErr w (Head lg)); by simplify_eq. }
  destruct r; [apply IH|done].
Qed.

Lemma threadOffsets_state net w tid s : (threadOffsets net w tid s).1 = s.
Proof.
  unfold threadOffsets, bind, lift, ret, threadLogs.
  destruct (getThread net tid) as [entries|e]; [|done].
  pose proof (gatherOffsets_state w
    (map (λ lg, mkLogInfo lg.1 (headOf s tid lg.1) lg.2) entries) ∅ [] s) as G.
  destruct (gatherOffsets w _ ∅ [] s) as [s1 [found|e]]; simpl in G; subst;
    [|done].
  by destruct (uniquePeers net found.2).
Qed.

Lemma putRecords_other_heads w fuel tid lid recs s s' res :
  (∀ x, heads (concurrent w x) = heads x) →
  putRecords w fuel tid lid recs s = Some (s', res) →
  ∀ k, k ≠ (tid, lid) → heads s' !! k = heads s !! k.
Proof.
  intros Hheads H.
  destruct (putRecords_commit _ _ _ _ _ _ _ _ H)
    as (s1 & chain & head & err & L & Hcase).
  pose proof (loadRecords_frame _ _ _ _ _ _ _ _ L) as [Fh _ _ _].
  destruct Hcase as [[-> _]|(-> & todo & s3 & r & cc & _ & B & -> & _)].
  - intros k _. by rewrite Fh.
  - apply Blocks_frame in B as (Bh & _). simpl in *.
    intros k Hk. by rewrite (Bh k Hk), Hheads, Fh.
Qed.

Lemma putAll_other_heads w failed fuel tid recs s s' res :
  (∀ x, heads (concurrent w x) = heads x) →
  putAll w failed fuel tid recs s = Some (s', res) →
  ∀ t l, t ≠ tid ∨ l ∉ recs.*1 → heads s' !! (t, l) = heads s !! (t, l).
Proof.
  intros Hheads. revert s. induction recs as [|[lid rs] rest IH]; intros s;
    simpl.
  - intros H. by simplify_eq.
  - destruct (putRecords w fuel tid lid rs s) as [[s1 [e|]]|] eqn:P; [| |done].
    + intros H t l Hk. simplify_eq.
      eapply putRecords_other_heads; [done..|].
      intros E. simplify_eq. destruct Hk as [?|Hk]; [done|].
      apply Hk. by left.
    + intros H t l Hk. rewrite (IH _ H t l).
      * eapply putRecords_other_heads; [done..|].
        intros E. simplify_eq. destruct Hk as [?|Hk]; [done|].
        apply Hk. by left.
      * destruct Hk as [?|Hk]; [by left|right].
        intros Hin. apply Hk. by right.
Qed.

(** X11: a pull moves the head of a log only if the log belongs to the
    pulled thread and the peers sent records for it. *)
Theorem pull_moves_only_replied_heads (net : Network) (w : World) (fuel : nat)
    (tid : ThreadID) (s s' : State) (res : option error) :
  (∀ x, heads (concurrent w x) = heads x) →
  pullThread net w fuel tid s = Some (s', res) →
  ∀ t l, heads s' !! (t, l) ≠ heads s !! (t, l) →
    t = tid ∧
    ∃ offsets peers recs,
      threadOffsets net w tid s = (s, Ok (offsets, peers)) ∧
      getRecords net peers tid offsets MaxPullLimit = Ok recs ∧
      l ∈ recs.*1.
Proof.
  intros Hheads H t l Hmoved. unfold pullThread in H.
  pose proof (threadOffsets_state net w tid s) as Hs.
  destruct (threadOffsets net w tid s) as [s1 [[offsets peers]|e]];
    simpl in Hs; subst s1; [|by simplify_eq].
  destruct (getRecords net peers tid offsets MaxPullLimit) as [recs|e] eqn:G;
    [|by simplify_eq].
  destruct (decide (t = tid)) as [->|Ht].
  - split; [done|]. exists offsets, peers, recs. split; [done|]. split; [done|].
    destruct (decide (l ∈ recs.*1)) as [|Hl]; [done|].
    destruct Hmoved. eapply putAll_other_heads; [done..|]. by right.
  - destruct Hmoved. eapply putAll_other_heads; [done..|]. by left.
Qed.

Lemma pull_moves_only_replied_heads_witness :
  (∀ x, heads (concurrent quietWorld x) = heads x) ∧
  pullThread (sampleNetwork sampleReply) quietWorld 5 "t" emptyState
    = Some (pulledState, None) ∧
  ∀ t l, heads pulledState !! (t, l) ≠ heads emptyState !! (t, l) →
    t = "t" ∧
    ∃ offsets peers recs,
      threadOffsets (sampleNetwork sampleReply) quietWorld "t" emptyState
        = (emptyState, Ok (offsets, peers)) ∧
      getRecords (sampleNetwork sampleReply) peers "t" offsets MaxPullLimit
        = Ok recs ∧
      l ∈ recs.*1.
Proof.
  assert (pullThread (sampleNetwork sampleReply) quietWorld 5 "t" emptyState
            = Some (pulledState, None)) as H by (vm_compute; reflexivity).
  split; [reflexivity|]. split; [exact H|].
  exact (pull_moves_only_replied_heads (sampleNetwork sampleReply) quietWorld 5
           "t" emptyState _ _ (λ x, eq_refl) H).
Defined.

Lemma putAll_known w failed fuel tid recs s :
  Forall (λ entry, ∃ final, last entry.2 = Some final ∧
                            hasErr w (RecordCid final) = None ∧
                            RecordCid final ∈ bstore s) recs →
  putAll w failed fuel tid recs s = Some (s, None).
Proof.
  induction 1 as [|[lid rs] rest (final & Hlast & Hhas & Hin) _ IH]; simpl;
    [done|].
  rewrite (known_last_returns_at_once w fuel tid lid rs final s Hlast Hhas);
    [done|by left].
Qed.

(** X12: a pull whose reply ends, for every log, in a record that is
    already in the blockstore changes nothing and returns nil. *)
Theorem pull_of_known_records_changes_nothing (net : Network) (w : World)
    (fuel : nat) (tid : ThreadID) (s s1 : State) (offsets : gmap LogID Cid)
    (peers : list PeerID) (recs : Reply) :
  threadOffsets net w tid s = (s1, Ok (offsets, peers)) →
  getRecords net peers tid offsets MaxPullLimit = Ok recs →
  Forall (λ entry, ∃ final, last entry.2 = Some final ∧
                            hasErr w (RecordCid final) = None ∧
                            RecordCid final ∈ bstore s) recs →
  pullThread net w fuel tid s = Some (s, None).
Proof.
  intros T G Hknown. unfold pullThread.
  pose proof (threadOffsets_state net w tid s) as Hs.
  rewrite T in Hs. simpl in Hs. subst s1.
  rewrite T, G. by apply putAll_known.
Qed.

Lemma pull_of_known_records_changes_nothing_witness :
  threadOffsets (sampleNetwork sampleReply) quietWorld "t" pulledState
    = (pulledState, Ok ((sampleOffsetsIn pulledState).1,
                        (sampleOffsetsIn pulledState).2)) ∧
  getRecords (sampleNetwork sampleReply) (sampleOffsetsIn pulledState).2 "t"
             (sampleOffsetsIn pulledState).1 MaxPullLimit = Ok sampleReply ∧
  Forall (λ entry, ∃ final, last entry.2 = Some final ∧
                            hasErr quietWorld (RecordCid final) = None ∧
                            RecordCid final ∈ bstore pulledState) sampleReply ∧
  pullThread (sampleNetwork sampleReply) quietWorld 5 "t" pulledState
    = Some (pulledState, None).
Proof.
  assert (threadOffsets (sampleNetwork sampleReply) quietWorld "t" pulledState
            = (pulledState, Ok ((sampleOffsetsIn pulledState).1,
                                (sampleOffsetsIn pulledState).2))) as T
    by (vm_compute; reflexivity).
  assert (Forall (λ entry, ∃ final, last entry.2 = Some final ∧
                    hasErr quietWorld (RecordCid final) = None ∧
                    RecordCid final ∈ bstore pulledState) sampleReply) as K.
  { repeat constructor.
    - exists (sampleRecord 3). split; [reflexivity|]. split; [reflexivity|].
      apply (bool_decide_eq_true_1 (CidOf 3 ∈ bstore pulledState)).
      vm_compute. reflexivity.
    - exists (sampleRecord 5). split; [reflexivity|]. split; [reflexivity|].
      apply (bool_decide_eq_true_1 (CidOf 5 ∈ bstore pulledState)).
      vm_compute. reflexivity. }
  split; [exact T|]. split; [reflexivity|]. split; [exact K|].
  exact (pull_of_known_records_changes_nothing (sampleNetwork sampleReply)
           quietWorld 5 "t" pulledState pulledState _ _ sampleReply T
           eq_refl K).
Defined.



(** ** Adding a record *)

(** X14: [AddRecord] changes the stores or hands the record to the peers
    only when the token is valid, the log has a public key that verifies the
    record, and the record is not yet in the blockstore; the record is
    handed to the peers only after [putRecords] returned nil for it, and a
    nil result means the record was known or was handed to the peers. *)
Theorem add_record_is_guarded (net : Network) (w : World) (fuel : nat)
    (tid : ThreadID) (lid : LogID) (rec : NetRecord) (token : Token)
    (s s' : State) (pushed : list (ThreadID * LogID * NetRecord))
    (res : option error) :
  AddRecord net w fuel tid lid rec token s = Some (s', pushed, res) →
  (s' ≠ s ∨ pushed ≠ [] →
     validateToken net tid token = None ∧
     (∃ logpk, pubKeys net tid lid = Ok (Some logpk) ∧
               verifyErr net rec logpk = None) ∧
     RecordCid rec ∉ bstore s) ∧
  (pushed ≠ [] →
     pushed = [(tid, lid, rec)] ∧
     putRecords w fuel tid lid [rec] s = Some (s', None) ∧
     res = pushRecordErr net tid lid rec) ∧
  (res = None → RecordCid rec ∈ bstore s ∨ pushed = [(tid, lid, rec)]).
Proof.
  unfold AddRecord, isKnown. intros H.
  assert (∀ e, Some (s, @nil (ThreadID * LogID * NetRecord), Some e)
               = Some (s', pushed, res) →
    (s' ≠ s ∨ pushed ≠ [] →
       validateToken net tid token = None ∧
       (∃ logpk, pubKeys net tid lid = Ok (Some logpk) ∧
                 verifyErr net rec logpk = None) ∧
       RecordCid rec ∉ bstore s) ∧
    (pushed ≠ [] →
       pushed = [(tid, lid, rec)] ∧
       putRecords w fuel tid lid [rec] s = Some (s', None) ∧
       res = pushRecordErr net tid lid rec) ∧
    (res = None → RecordCid rec ∈ bstore s ∨ pushed = [(tid, lid, rec)]))
    as Hstop.
  { intros e E. simplify_eq. split; [by intros [?|?]|]. by split. }
  destruct (validateToken net tid token) as [e|] eqn:V; [by eapply Hstop|].
  destruct (pubKeys net tid lid) as [[logpk|]|e] eqn:K;
    [|by eapply Hstop..].
  destruct (hasErr w (RecordCid rec)) as [e|] eqn:Has; [by eapply Hstop|].
  destruct (bool_decide (RecordCid rec ∈ bstore s)) eqn:Known.
  { apply bool_decide_eq_true in Known. simplify_eq.
    split; [by intros [?|?]|]. split; [done|]. intros _. by left. }
  apply bool_decide_eq_false in Known.
  destruct (verifyErr net rec logpk) as [e|] eqn:Ver; [by eapply Hstop|].
  destruct (putRecords w fuel tid lid [rec] s) as [[s2 [e|]]|] eqn:P; [| |done].
  - simplify_eq. split; [|by split]. intros _. split; [done|].
    split; [by exists logpk|done].
  - simplify_eq. split; [|split].
    + intros _. split; [done|]. split; [by exists logpk|done].
    + intros _. by split.
    + intros _. by right.
Qed.

Lemma add_record_is_guarded_witness :
  sampleAdded = Some (addedState, [("t", "l", sampleRecord 1)], None) ∧
  (addedState ≠ emptyState ∨ [("t", "l", sampleRecord 1)] ≠ [] →
     validateToken (sampleNetwork sampleReply) "t" "valid" = None ∧
     (∃ logpk, pubKeys (sampleNetwork sampleReply) "t" "l" = Ok (Some logpk) ∧
               verifyErr (sampleNetwork sampleReply) (sampleRecord 1) logpk
                 = None) ∧
     RecordCid (sampleRecord 1) ∉ bstore emptyState) ∧
  ([("t", "l", sampleRecord 1)] ≠ [] →
     [("t", "l", sampleRecord 1)] = [("t", "l", sampleRecord 1)] ∧
     putRecords quietWorld 5 "t" "l" [sampleRecord 1] emptyState
       = Some (addedState, None) ∧
     None = pushRecordErr (sampleNetwork sampleReply) "t" "l" (sampleRecord 1)) ∧
  (@None error = None →
     RecordCid (sampleRecord 1) ∈ bstore emptyState ∨
     [("t", "l", sampleRecord 1)] = [("t", "l", sampleRecord 1)]).
Proof.
  assert (sampleAdded = Some (addedState, [("t", "l", sampleRecord 1)], None))
    as H by (vm_compute; reflexivity).
  split; [exact H|].
  exact (add_record_is_guarded (sampleNetwork sampleReply) quietWorld 5 "t" "l"
           (sampleRecord 1) "valid" emptyState _ _ _ H).
Defined.
